(** * Keybinding resolution engine: resolver index, rule-set combiner, chord dispatcher

    Shallow embedding of
      - vs/platform/keybinding/common/keybindingResolver.ts
      - vs/platform/keybinding/common/abstractKeybindingService.ts
      - the workbench keybinding service built on them (contributed
        keybindings, user entries, the cached resolver)
    and the properties of the resolver stated in the specification.

    JavaScript objects used as dictionaries ([_map], [_chords], the rule set
    built in [whenIsEntirelyIncluded], [_defaultBoundCommands]) are finite maps
    and sets; arrays are lists; [null] is [None]. Every loop of the source is
    a recursive function over its index, or a fold over the list it walks in
    the order of the loop. *)

From Stdlib Require Import String Ascii NArith List Bool Lia.
From stdpp Require Import base option list gmap strings pretty sorting.

Local Open Scope string_scope.
Local Open Scope list_scope.
Local Open Scope nat_scope.

(** ** JavaScript string and array primitives used by the resolver *)

Module JS.

(** Truthiness of a nullable string: [null] and the empty string are falsy. *)
Definition truthy (s : option string) : bool :=
  match s with
  | Some (String _ _) => true
  | _ => false
  end.

(** [s.substr(1)] *)
Definition substr1 (s : string) : string :=
  match s with
  | String _ rest => rest
  | EmptyString => EmptyString
  end.

(** [s.charAt(0) === c] and [s.charCodeAt(0) === code(c)] *)
Definition firstCharIs (c : ascii) (s : string) : bool :=
  match s with
  | String c0 _ => bool_decide (c0 = c)
  | EmptyString => false
  end.

(** [arr.join(sep)] *)
Fixpoint join (sep : string) (arr : list string) : string :=
  match arr with
  | [] => ""
  | [x] => x
  | x :: rest => x +:+ sep +:+ join sep rest
  end.

(** [new Array(n)]: [n] empty slots, each rendered as the empty string by
    [join]. *)
Definition newArray (n : nat) : list string := replicate n "".

(** [s.split(sep)] for a non-empty separator: [skip] counts the characters
    of a separator occurrence still to be consumed, [cur] is the piece being
    read. *)
Fixpoint split_go (sep : string) (skip : nat) (cur : string) (s : string)
  : list string :=
  match s with
  | EmptyString => [cur]
  | String c rest =>
      match skip with
      | S k => split_go sep k cur rest
      | O =>
          if String.prefix sep s
          then cur :: split_go sep (String.length sep - 1) "" rest
          else split_go sep 0 (cur +:+ String c "") rest
      end
  end.

Definition split (sep : string) (s : string) : list string :=
  split_go sep 0 "" s.

(** The double-quote character, as a one-character string. *)
Definition dquote : string :=
  String (Ascii false true false false false true false false) EmptyString.

(** [String(x)] for a nullable string: the coercion applied to a property
    key and to an operand of string concatenation. *)
Definition toString (s : option string) : string :=
  match s with
  | Some x => x
  | None => "null"
  end.

End JS.

(** ** Key codes *)

(** Modelled from the spec: [Keybinding] (vs/base/common/keyCodes is not among
    the sources). A keybinding is one key-press code, or two in sequence (a
    chord); equality is structural, and the [value] of a keybinding identifies
    the whole sequence. *)
Inductive Keybinding : Type :=
| SimpleKeybinding (value : N)
| ChordKeybinding (firstPart chordPart : N).

#[global] Instance Keybinding_eq_dec : EqDecision Keybinding.
Proof. solve_decision. Defined.

Definition isChord (k : Keybinding) : bool :=
  match k with
  | SimpleKeybinding _ => false
  | ChordKeybinding _ _ => true
  end.

(** [k.extractFirstPart().value]; for a simple keybinding, [k.value]. *)
Definition firstPartValue (k : Keybinding) : N :=
  match k with
  | SimpleKeybinding v => v
  | ChordKeybinding f _ => f
  end.

(** [a.value === b.value]: the two keybindings are the same sequence. *)
Definition sameValue (a b : Keybinding) : bool := bool_decide (a = b).

(** [a.equals(other)], where [other] may be [null]. *)
Definition Keybinding_equals (a : Keybinding) (other : option Keybinding) : bool :=
  match other with
  | Some b => bool_decide (a = b)
  | None => false
  end.

(** ** External collaborators

    The condition expressions (vs/platform/contextkey), the label provider
    (keybindingLabels), [isModifierKey] and [JSON.stringify] are used by the
    resolver through their interface only; the development is parametric in
    them. *)
Class External : Type := {
  ContextValue : Type;
  ContextKeyExpr : Type;
  evaluate : ContextKeyExpr → ContextValue → bool;
  serialize : ContextKeyExpr → string;
  normalize : ContextKeyExpr → ContextKeyExpr;
  equals : ContextKeyExpr → ContextKeyExpr → bool;
  Args : Type;
  argsTruthy : Args → bool;
  emptyObject : Args;
  toUserSettingsLabel : option Keybinding → string;
  getLabel : N → string;
  isModifierKey : N → bool;
  JSON_stringify : string → string;
}.

Section Model.
Context `{Ext : External}.

(** ** NormalizedKeybindingItem *)

(** [oid] is the identity of the object: [===] on items compares it. The other
    fields are those of the class. *)
Record NormalizedKeybindingItem : Type := mkItem {
  oid : nat;
  keybinding : option Keybinding;
  bubble : bool;
  command : option string;
  commandArgs : option Args;
  when : option ContextKeyExpr;
  isDefault : bool;
}.

(** The constructor: a leading caret ([CharCode.Caret]) marks a bubbling
    command and is stripped. [o] is the identity of the new object. *)
Definition newNormalizedKeybindingItem (o : nat) (kb : option Keybinding)
    (cmd : option string) (args : option Args) (w : option ContextKeyExpr)
    (isDef : bool) : NormalizedKeybindingItem :=
  let b :=
    match cmd with
    | Some c => if JS.truthy cmd then JS.firstCharIs "^"%char c else false
    | None => false
    end in
  {| oid := o;
     keybinding := kb;
     bubble := b;
     command := if b then JS.substr1 <$> cmd else cmd;
     commandArgs := args;
     when := w;
     isDefault := isDef |}.

(** [a === b] on items. *)
Definition sameObject (a b : NormalizedKeybindingItem) : bool :=
  bool_decide (oid a = oid b).

(** ** Rule-set combiner *)

Definition _isTargetedForRemoval (defaultKb : NormalizedKeybindingItem)
    (kb : option Keybinding) (cmd : string) (w : option ContextKeyExpr) : bool :=
  if bool_decide (command defaultKb ≠ Some cmd) then false
  else if match kb with
          | Some k => negb (Keybinding_equals k (keybinding defaultKb))
          | None => false
          end then false
  else match w with
       | Some w' =>
           match when defaultKb with
           | None => false
           | Some dw => if negb (equals w' dw) then false else true
           end
       | None => true
       end.

(** The test at the head of the loop body of [combine]:
    [!override.command || override.command.length === 0 ||
     override.command.charAt(0) !== '-'], under which the override is kept as
    a rule. *)
Definition keptAsRule (override : NormalizedKeybindingItem) : bool :=
  negb (JS.truthy (command override))
  || match command override with
     | Some c => bool_decide (String.length c = 0) || negb (JS.firstCharIs "-"%char c)
     | None => true
     end.

(** The inner loop [for (j = defaults.length - 1; j >= 0; j--)], with
    [n = j + 1]; [splice(j, 1)] is [delete j]. *)
Fixpoint removeTargeted (kb : option Keybinding) (cmd : string)
    (w : option ContextKeyExpr) (n : nat)
    (defaults : list NormalizedKeybindingItem) : list NormalizedKeybindingItem :=
  match n with
  | O => defaults
  | S j =>
      match defaults !! j with
      | Some d =>
          if _isTargetedForRemoval d kb cmd w
          then removeTargeted kb cmd w j (delete j defaults)
          else removeTargeted kb cmd w j defaults
      | None => removeTargeted kb cmd w j defaults
      end
  end.

(** The outer loop over [rawOverrides], threading the two arrays. *)
Fixpoint combine_loop (rawOverrides : list NormalizedKeybindingItem)
    (defaults overrides : list NormalizedKeybindingItem)
    : list NormalizedKeybindingItem * list NormalizedKeybindingItem :=
  match rawOverrides with
  | [] => (defaults, overrides)
  | override :: rest =>
      if keptAsRule override
      then combine_loop rest defaults (overrides ++ [override])
      else
        let commandToRemove := JS.substr1 (default "" (command override)) in
        let keybindingToRemove := keybinding override in
        let whenToRemove := when override in
        combine_loop rest
          (removeTargeted keybindingToRemove commandToRemove whenToRemove
             (length defaults) defaults)
          overrides
  end.

Definition combine (defaults rawOverrides : list NormalizedKeybindingItem)
    : list NormalizedKeybindingItem :=
  let '(defaults', overrides) := combine_loop rawOverrides defaults [] in
  defaults' ++ overrides.

(** ** Shadow test *)

(** [whenIsEntirelyIncluded(inNormalizedForm, a, b)]. The object [aRules] is
    the set of the clauses of [a]. *)
Definition whenIsEntirelyIncluded (inNormalizedForm : bool)
    (a b : option ContextKeyExpr) : bool :=
  let a := if inNormalizedForm then a else normalize <$> a in
  let b := if inNormalizedForm then b else normalize <$> b in
  match b with
  | None => true
  | Some b' =>
      match a with
      | None => false
      | Some a' =>
          let aRulesArr := JS.split " && " (serialize a') in
          let bRulesArr := JS.split " && " (serialize b') in
          let aRules : gset string := list_to_set aRulesArr in
          forallb (λ rule, bool_decide (rule ∈ aRules)) bRulesArr
      end
  end.

(** ** Resolver index *)

Record KeybindingResolver : Type := mkResolver {
  _defaultKeybindings : list NormalizedKeybindingItem;
  _shouldWarnOnConflict : bool;
  _defaultBoundCommands : gset string;
  _map : gmap N (list NormalizedKeybindingItem);
  _chords : gmap N (gmap N (list NormalizedKeybindingItem));
  _lookupMap : gmap string (list NormalizedKeybindingItem);
  (** what [console.warn] printed, oldest first *)
  console : list string;
}.

Definition set_map (f : gmap N (list NormalizedKeybindingItem) →
                        gmap N (list NormalizedKeybindingItem))
    (r : KeybindingResolver) : KeybindingResolver :=
  mkResolver (_defaultKeybindings r) (_shouldWarnOnConflict r)
    (_defaultBoundCommands r) (f (_map r)) (_chords r) (_lookupMap r) (console r).

Definition set_chords (f : gmap N (gmap N (list NormalizedKeybindingItem)) →
                           gmap N (gmap N (list NormalizedKeybindingItem)))
    (r : KeybindingResolver) : KeybindingResolver :=
  mkResolver (_defaultKeybindings r) (_shouldWarnOnConflict r)
    (_defaultBoundCommands r) (_map r) (f (_chords r)) (_lookupMap r) (console r).

Definition set_lookupMap (f : gmap string (list NormalizedKeybindingItem) →
                              gmap string (list NormalizedKeybindingItem))
    (r : KeybindingResolver) : KeybindingResolver :=
  mkResolver (_defaultKeybindings r) (_shouldWarnOnConflict r)
    (_defaultBoundCommands r) (_map r) (_chords r) (f (_lookupMap r)) (console r).

Definition console_warn (msg : string) (r : KeybindingResolver) : KeybindingResolver :=
  mkResolver (_defaultKeybindings r) (_shouldWarnOnConflict r)
    (_defaultBoundCommands r) (_map r) (_chords r) (_lookupMap r) (console r ++ [msg]).

Definition _addToLookupMap (item : NormalizedKeybindingItem)
    (r : KeybindingResolver) : KeybindingResolver :=
  match command item with
  | Some c =>
      if negb (JS.truthy (command item)) then r
      else
        match _lookupMap r !! c with
        | None => set_lookupMap (λ m, <[c := [item]]> m) r
        | Some arr => set_lookupMap (λ m, <[c := arr ++ [item]]> m) r
        end
  | None => r
  end.

(** The loop of [_removeFromLookupMap]: the first entry that is the very same
    object is spliced out. *)
Fixpoint spliceFirstSame (item : NormalizedKeybindingItem)
    (arr : list NormalizedKeybindingItem) : list NormalizedKeybindingItem :=
  match arr with
  | [] => []
  | x :: rest => if sameObject x item then rest else x :: spliceFirstSame item rest
  end.

(** A [Map] lookup with a [null] key finds nothing: no entry is ever stored
    under it. *)
Definition _removeFromLookupMap (item : NormalizedKeybindingItem)
    (r : KeybindingResolver) : KeybindingResolver :=
  match command item with
  | Some c =>
      match _lookupMap r !! c with
      | None => r
      | Some arr => set_lookupMap (λ m, <[c := spliceFirstSame item arr]> m) r
      end
  | None => r
  end.

(** The two [continue] guards of the loop of [_addKeyPress]. Only items with
    a keybinding reach a bucket, so the keybindings read here are present. *)
Definition sameCommand (conflict item : NormalizedKeybindingItem) : bool :=
  bool_decide (command conflict = command item).

Definition onlySharesChordStart (conflict item : NormalizedKeybindingItem) : bool :=
  match keybinding conflict, keybinding item with
  | Some kc, Some ki => isChord kc && isChord ki && negb (sameValue kc ki)
  | _, _ => false
  end.

(** [item] completely overwrites [conflict]: the body of the loop is reached
    and the inclusion test succeeds. *)
Definition shadows (item conflict : NormalizedKeybindingItem) : bool :=
  negb (sameCommand conflict item)
  && negb (onlySharesChordStart conflict item)
  && whenIsEntirelyIncluded true (when conflict) (when item).

Definition conflictMessage (conflict item : NormalizedKeybindingItem) : string :=
  "Conflict detected, command `" +:+ JS.toString (command conflict)
  +:+ "` cannot be triggered by " +:+ toUserSettingsLabel (keybinding conflict)
  +:+ " due to " +:+ JS.toString (command item).

(** One iteration of [for (i = conflicts.length - 1; i >= 0; i--)]. *)
Definition checkConflict (item : NormalizedKeybindingItem)
    (r : KeybindingResolver) (conflict : NormalizedKeybindingItem)
    : KeybindingResolver :=
  if sameCommand conflict item then r
  else if onlySharesChordStart conflict item then r
  else if whenIsEntirelyIncluded true (when conflict) (when item) then
    let r := if _shouldWarnOnConflict r && isDefault item
             then console_warn (conflictMessage conflict item) r
             else r in
    _removeFromLookupMap conflict r
  else r.

Definition _addKeyPress (keypress : N) (item : NormalizedKeybindingItem)
    (r : KeybindingResolver) : KeybindingResolver :=
  match _map r !! keypress with
  | None =>
      _addToLookupMap item (set_map (λ m, <[keypress := [item]]> m) r)
  | Some conflicts =>
      let r := foldl (checkConflict item) r (reverse conflicts) in
      _addToLookupMap item (set_map (λ m, <[keypress := conflicts ++ [item]]> m) r)
  end.

(** One iteration of the loop over [allKeybindings] in the constructor. *)
Definition indexItem (r : KeybindingResolver) (k : NormalizedKeybindingItem)
    : KeybindingResolver :=
  match keybinding k with
  | None => r
  | Some (ChordKeybinding keybindingFirstPart keybindingChordPart) =>
      let inner := default ∅ (_chords r !! keybindingFirstPart) in
      let bucket := default [] (inner !! keybindingChordPart) in
      let r := set_chords
                 (λ m, <[keybindingFirstPart :=
                           <[keybindingChordPart := bucket ++ [k]]> inner]> m) r in
      _addKeyPress keybindingFirstPart k r
  | Some (SimpleKeybinding v) => _addKeyPress v k r
  end.

(** [new KeybindingResolver(defaultKeybindings, overrides, shouldWarnOnConflict)] *)
Definition newKeybindingResolver
    (defaultKeybindings overrides : list NormalizedKeybindingItem)
    (shouldWarnOnConflict : bool) : KeybindingResolver :=
  let bound : gset string :=
    foldl (λ s d, {[ JS.toString (command d) ]} ∪ s) ∅ defaultKeybindings in
  let r := mkResolver defaultKeybindings shouldWarnOnConflict bound ∅ ∅ ∅ [] in
  let allKeybindings := combine defaultKeybindings overrides in
  foldl indexItem r allKeybindings.

Definition getDefaultBoundCommands (r : KeybindingResolver) : gset string :=
  _defaultBoundCommands r.

Definition lookupKeybindings (r : KeybindingResolver) (commandId : string)
    : list NormalizedKeybindingItem :=
  match _lookupMap r !! commandId with
  | None => []
  | Some items => if bool_decide (length items = 0) then [] else reverse items
  end.

Definition lookupPrimaryKeybinding (r : KeybindingResolver) (commandId : string)
    : option NormalizedKeybindingItem :=
  match _lookupMap r !! commandId with
  | None => None
  | Some items => if bool_decide (length items = 0) then None else last items
  end.

(** ** Resolution *)

Definition contextMatchesRules (context : ContextValue)
    (rules : option ContextKeyExpr) : bool :=
  match rules with
  | None => true
  | Some e => evaluate e context
  end.

(** The loop of [_findCommand], from the last candidate to the first. *)
Fixpoint findLastMatching (context : ContextValue)
    (reversed : list NormalizedKeybindingItem) : option NormalizedKeybindingItem :=
  match reversed with
  | [] => None
  | k :: rest =>
      if negb (contextMatchesRules context (when k))
      then findLastMatching context rest
      else Some k
  end.

Definition _findCommand (context : ContextValue)
    (matches : option (list NormalizedKeybindingItem))
    : option NormalizedKeybindingItem :=
  match matches with
  | None => None
  | Some l => findLastMatching context (reverse l)
  end.

(** [IResolveResult]; the last two fields are [commandArgs] and [bubble] of
    the interface. *)
Record IResolveResult : Type := mkResult {
  enterChord : option N;
  commandId : option string;
  resultArgs : option Args;
  resultBubble : bool;
}.

(** The candidate list selected at the start of [resolve]: the outer [None]
    is the early [return null] taken when no chord starts with [currentChord];
    the inner option is the possibly undefined bucket. *)
Definition lookupMapFor (r : KeybindingResolver) (currentChord : option N)
    (keypress : N) : option (option (list NormalizedKeybindingItem)) :=
  match currentChord with
  | Some chord =>
      match _chords r !! chord with
      | None => None
      | Some chords => Some (chords !! keypress)
      end
  | None => Some (_map r !! keypress)
  end.

Definition resolve (r : KeybindingResolver) (context : ContextValue)
    (currentChord : option N) (keypress : N) : option IResolveResult :=
  match lookupMapFor r currentChord keypress with
  | None => None
  | Some lookupMap =>
      match _findCommand context lookupMap with
      | None => None
      | Some result =>
          if bool_decide (currentChord = None)
             && from_option isChord false (keybinding result)
          then Some (mkResult (Some keypress) None None false)
          else Some (mkResult None (command result) (commandArgs result) (bubble result))
      end
  end.

(** ** Canonical text of the default rules *)

Definition rightPaddedString (str : string) (minChars : nat) : string :=
  if bool_decide (String.length str < minChars)
  then str +:+ JS.join " " (JS.newArray (minChars - String.length str))
  else str.

Record OutputBuilder : Type := mkOutput {
  _lines : list string;
  _currentLine : string;
}.

Definition write (str : string) (out : OutputBuilder) : OutputBuilder :=
  mkOutput (_lines out) (_currentLine out +:+ str).

Definition writeLine (str : string) (out : OutputBuilder) : OutputBuilder :=
  mkOutput (_lines out ++ [_currentLine out +:+ str]) "".

Definition OutputBuilder_toString (out : OutputBuilder) : string :=
  JS.join (String (ascii_of_nat 10) "") (_lines (writeLine "" out)).

(** [JSON.stringify] of a nullable string. *)
Definition stringifyNullable (s : option string) : string :=
  match s with
  | Some x => JSON_stringify x
  | None => "null"
  end.

(** The padded key field written by [writeKeybindingItem]. *)
Definition keyField (item : NormalizedKeybindingItem) : string :=
  let quotedSerializedKeybinding :=
    JSON_stringify (toUserSettingsLabel (keybinding item)) in
  rightPaddedString (quotedSerializedKeybinding +:+ ",") 25.

Definition writeKeybindingItem (out : OutputBuilder)
    (item : NormalizedKeybindingItem) : OutputBuilder :=
  let out := write ("{ " +:+ JS.dquote +:+ "key" +:+ JS.dquote +:+ ": "
                    +:+ keyField item
                    +:+ " " +:+ JS.dquote +:+ "command" +:+ JS.dquote +:+ ": ") out in
  let serializedWhen :=
    match when item with
    | Some w => serialize w
    | None => ""
    end in
  let quotedSerializeCommand := stringifyNullable (command item) in
  let out :=
    if bool_decide (0 < String.length serializedWhen)
    then
      let out := write (quotedSerializeCommand +:+ ",") out in
      let out := writeLine "" out in
      write ("                                     " +:+ JS.dquote +:+ "when"
             +:+ JS.dquote +:+ ": " +:+ JS.dquote +:+ serializedWhen
             +:+ JS.dquote +:+ " ") out
    else write (quotedSerializeCommand +:+ " ") out in
  write "}" out.

(** The callback of [forEach] in [getDefaultKeybindings], with the items still
    to come. *)
Fixpoint writeItems (out : OutputBuilder) (items : list NormalizedKeybindingItem)
    : OutputBuilder :=
  match items with
  | [] => out
  | k :: rest =>
      let out := writeKeybindingItem out k in
      let out := match rest with
                 | [] => writeLine "" out
                 | _ => writeLine "," out
                 end in
      writeItems out rest
  end.

Definition getDefaultKeybindings (r : KeybindingResolver) : string :=
  let out := writeLine "[" (mkOutput [] "") in
  let out := writeItems out (_defaultKeybindings r) in
  let out := writeLine "]" out in
  OutputBuilder_toString out.

(** ** Dispatcher (AbstractKeybindingService) *)

(** What the dispatcher asks of the status bar and of the command service. *)
Inductive Effect : Type :=
| SetStatusMessage (msg : string) (autoDisposeAfter : option N)
| DisposeStatusMessage
| ExecuteCommand (id : string) (args : Args).

(** The mutable fields of the service, and the calls it has made. *)
Record AbstractKeybindingService : Type := mkService {
  _currentChord : option N;
  _currentChordStatusMessage : bool;
  effects : list Effect;
}.

Definition newAbstractKeybindingService : AbstractKeybindingService :=
  mkService None false [].

(** [AbstractKeybindingService.resolve]; [contextValue] is what the context
    key service returns for the target of the event. *)
Definition service_resolve (resolver : KeybindingResolver)
    (contextValue : ContextValue) (svc : AbstractKeybindingService)
    (keybinding : N) : option IResolveResult :=
  if isModifierKey keybinding then None
  else resolve resolver contextValue (_currentChord svc) keybinding.

(** [commandArgs || {}] *)
Definition argsOrEmpty (a : option Args) : Args :=
  match a with
  | Some v => if argsTruthy v then v else emptyObject
  | None => emptyObject
  end.

Definition firstChordMessage (firstPartLabel : string) : string :=
  "(" +:+ firstPartLabel +:+ ") was pressed. Waiting for second key of chord...".

Definition missingChordMessage (firstPartLabel chordPartLabel : string) : string :=
  "The key combination (" +:+ firstPartLabel +:+ ", " +:+ chordPartLabel
  +:+ ") is not a command.".

(** [resolveResult && resolveResult.commandId] *)
Definition hasCommand (resolveResult : option IResolveResult) : bool :=
  match resolveResult with
  | Some rr => JS.truthy (commandId rr)
  | None => false
  end.

(** [_dispatch]; [statusService] tells whether the optional status bar
    service was given to the constructor. Returns [shouldPreventDefault] and
    the service afterwards. *)
Definition _dispatch (resolver : KeybindingResolver) (statusService : bool)
    (contextValue : ContextValue) (keybinding : N)
    (svc : AbstractKeybindingService) : bool * AbstractKeybindingService :=
  let shouldPreventDefault := false in
  if isModifierKey keybinding then (shouldPreventDefault, svc)
  else
    let resolveResult := service_resolve resolver contextValue svc keybinding in
    match resolveResult ≫= enterChord with
    | Some chord =>
        let shouldPreventDefault := true in
        let svc :=
          if statusService
          then mkService (Some chord) true
                 (effects svc ++ [SetStatusMessage (firstChordMessage (getLabel chord)) None])
          else mkService (Some chord) (_currentChordStatusMessage svc) (effects svc) in
        (shouldPreventDefault, svc)
    | None =>
        let '(shouldPreventDefault, svc) :=
          match _currentChord svc with
          | Some chord =>
              if statusService && negb (hasCommand resolveResult)
              then (true,
                    mkService (_currentChord svc) (_currentChordStatusMessage svc)
                      (effects svc ++
                       [SetStatusMessage
                          (missingChordMessage (getLabel chord) (getLabel keybinding))
                          (Some 10000%N)]))
              else (shouldPreventDefault, svc)
          | None => (shouldPreventDefault, svc)
          end in
        let svc :=
          if _currentChordStatusMessage svc
          then mkService (_currentChord svc) false (effects svc ++ [DisposeStatusMessage])
          else svc in
        let svc := mkService None (_currentChordStatusMessage svc) (effects svc) in
        match resolveResult with
        | Some rr =>
            if JS.truthy (commandId rr)
            then
              let shouldPreventDefault :=
                if negb (resultBubble rr) then true else shouldPreventDefault in
              (shouldPreventDefault,
               mkService (_currentChord svc) (_currentChordStatusMessage svc)
                 (effects svc ++
                  [ExecuteCommand (default "" (commandId rr)) (argsOrEmpty (resultArgs rr))]))
            else (shouldPreventDefault, svc)
        | None => (shouldPreventDefault, svc)
        end
    end.

End Model.

(** ** A concrete set of collaborators, for running the model *)

Module Sample.

(** Modelled from the spec: the condition capability (vs/platform/contextkey
    is not among the sources). A condition is a conjunction of clauses, each
    naming a context variable; it holds in a context when every variable it
    names is set there. Its serialization joins the clauses with [" && "]. *)
Definition Expr : Type := list string.

Definition holds (e : Expr) (context : list string) : bool :=
  forallb (λ key, bool_decide (key ∈ context)) e.

(** Modelled from the spec: a key-press is modifier-only when it has no
    base key; here the codes of Shift, Ctrl, Alt and Meta. *)
Definition modifierOnly (k : N) : bool :=
  bool_decide (k ∈ [4; 5; 6; 57]%N).

Definition label (k : N) : string := "k" +:+ pretty.pretty k.

Definition settingsLabel (kb : option Keybinding) : string :=
  match kb with
  | None => ""
  | Some (SimpleKeybinding v) => label v
  | Some (ChordKeybinding f c) => label f +:+ " " +:+ label c
  end.

#[export] Instance ext : External := {|
  ContextValue := list string;
  ContextKeyExpr := Expr;
  evaluate := holds;
  serialize := JS.join " && ";
  normalize := λ e, e;
  equals := λ a b, bool_decide (a = b);
  Args := string;
  argsTruthy := λ s, negb (bool_decide (s = ""));
  emptyObject := "{}";
  toUserSettingsLabel := settingsLabel;
  getLabel := label;
  isModifierKey := modifierOnly;
  JSON_stringify := λ s, JS.dquote +:+ s +:+ JS.dquote;
|}.

(** A rule as the service creates it: [rule o key cmd w isDef]. *)
Definition rule (o : nat) (kb : Keybinding) (cmd : string)
    (w : option Expr) (isDef : bool) : NormalizedKeybindingItem :=
  newNormalizedKeybindingItem o (Some kb) (Some cmd) None w isDef.

(** The context in which exactly the variables of [vars] are set. *)
Definition context (vars : list string) : ContextValue := vars.

End Sample.

(** ** Notions used to state the properties *)

Section Notions.
Context `{Ext : External}.

(** The removal directive [o] targets the default rule [d]: the call of
    [_isTargetedForRemoval] made by [combine] for this pair. *)
Definition targets (o d : NormalizedKeybindingItem) : bool :=
  _isTargetedForRemoval d (keybinding o) (JS.substr1 (default "" (command o))) (when o).

(** [d] survives every removal directive of [rawOverrides]. *)
Definition survives (rawOverrides : list NormalizedKeybindingItem)
    (d : NormalizedKeybindingItem) : bool :=
  negb (existsb (λ o, negb (keptAsRule o) && targets o d) rawOverrides).

(** The clauses of a condition: the pieces of its serialization. *)
Definition clausesOf (e : ContextKeyExpr) : list string :=
  JS.split " && " (serialize e).

(** The inclusion of the specification, word for word: every clause of the
    candidate's condition [c] is a clause of the condition [r] of the rule
    being inserted; an absent condition is included in anything and includes
    nothing but an absent one. *)
Definition includedAsStated (c r : option ContextKeyExpr) : Prop :=
  match c, r with
  | None, _ => True
  | Some _, None => False
  | Some c', Some r' => ∀ clause, clause ∈ clausesOf c' → clause ∈ clausesOf r'
  end.

(** The rule that [resolve] selects, if any: the result of its call of
    [_findCommand]. *)
Definition winner (r : KeybindingResolver) (context : ContextValue)
    (currentChord : option N) (keypress : N) : option NormalizedKeybindingItem :=
  lookupMapFor r currentChord keypress ≫= _findCommand context.

(** The three outcomes of the specification, as results of [resolve]. *)
Definition NoMatch : option IResolveResult := None.
Definition AwaitChord (keypress : N) : option IResolveResult :=
  Some (mkResult (Some keypress) None None false).
Definition Invoke (cmd : option string) (args : option Args) (b : bool)
    : option IResolveResult :=
  Some (mkResult None cmd args b).

(** The key under which the constructor files a rule in the flat index. *)
Definition flatKey (k : NormalizedKeybindingItem) : option N :=
  firstPartValue <$> keybinding k.

(** The candidates filed under a key-press, and under a chord; an undefined
    bucket has none. *)
Definition flatBucket (r : KeybindingResolver) (k : N)
    : list NormalizedKeybindingItem :=
  default [] (_map r !! k).

Definition chordBucket (r : KeybindingResolver) (k1 k2 : N)
    : list NormalizedKeybindingItem :=
  default [] (default ∅ (_chords r !! k1) !! k2).

Definition candidates (r : KeybindingResolver) (currentChord : option N)
    (keypress : N) : list NormalizedKeybindingItem :=
  match currentChord with
  | Some chord => chordBucket r chord keypress
  | None => flatBucket r keypress
  end.

(** The rules recorded for a command in the by-command index. *)
Definition entries (r : KeybindingResolver) (cmd : string)
    : list NormalizedKeybindingItem :=
  default [] (_lookupMap r !! cmd).

(** What a resolver answers its queries from: everything but the warning
    switch and the log of warnings. *)
Definition indexOf (r : KeybindingResolver) :=
  (_defaultKeybindings r, _defaultBoundCommands r, _map r, _chords r, _lookupMap r).

(** The commands handed to the command service so far, oldest first. *)
Definition executed (svc : AbstractKeybindingService) : list (string * Args) :=
  omap (λ e, match e with
             | ExecuteCommand id args => Some (id, args)
             | _ => None
             end) (effects svc).

(** The call made for a rule whose command is invoked; none for an empty
    command. *)
Definition executionOf (rr : option IResolveResult) : list (string * Args) :=
  match rr with
  | Some res =>
      if JS.truthy (commandId res)
      then [(default "" (commandId res), argsOrEmpty (resultArgs res))]
      else []
  | None => []
  end.

Definition matchesContext (context : ContextValue)
    (k : NormalizedKeybindingItem) : bool :=
  contextMatchesRules context (when k).

End Notions.

(** ** The rest of the abstract service: lookups and the list of commands *)

Section ServiceQueries.
Context `{Ext : External}.

(** A [ResolvedKeybinding], as both implementations build it: a wrapper of
    the keybinding it was created for. *)
Record ResolvedKeybinding : Type := mkResolved {
  _actual : option Keybinding;
}.

Definition _createResolvedKeybinding (kb : option Keybinding) : ResolvedKeybinding :=
  mkResolved kb.

(** [AbstractKeybindingService.lookupKeybindings] *)
Definition service_lookupKeybindings (resolver : KeybindingResolver)
    (commandId : string) : list (option Keybinding) :=
  keybinding <$> lookupKeybindings resolver commandId.

(** [AbstractKeybindingService.lookupKeybinding] *)
Definition service_lookupKeybinding (resolver : KeybindingResolver)
    (commandId : string) : option ResolvedKeybinding :=
  match lookupPrimaryKeybinding resolver commandId with
  | None => None
  | Some result => Some (_createResolvedKeybinding (keybinding result))
  end.

(** A registered command, as [_getAllCommandsAsComment] reads it: its
    [description], when it is an object, with the [args] it describes. *)
Record ICommand : Type := mkCommand {
  description : option (list string);
}.

(** [isFalsyOrEmpty] of vs/base/common/arrays, on an array. *)
Definition isFalsyOrEmpty {A} (arr : list A) : bool :=
  bool_decide (length arr = 0).

(** [id[0] === '_' || id.indexOf('vscode.') === 0] *)
Definition isPrivateCommand (id : string) : bool :=
  JS.firstCharIs "_"%char id || String.prefix "vscode." id.

(** [typeof description === 'object' && !isFalsyOrEmpty(description.args)] *)
Definition hasDescribedArgs (c : ICommand) : bool :=
  match description c with
  | Some args => negb (isFalsyOrEmpty args)
  | None => false
  end.

(** The loop [for (let id in commands)]; [commands] lists the registry in
    the order of the enumeration. *)
Fixpoint collectUnbound (boundCommands : gset string)
    (commands : list (string * ICommand)) (unboundCommands : list string)
    : list string :=
  match commands with
  | [] => unboundCommands
  | (id, c) :: rest =>
      if isPrivateCommand id then collectUnbound boundCommands rest unboundCommands
      else if hasDescribedArgs c then collectUnbound boundCommands rest unboundCommands
      else if bool_decide (id ∈ boundCommands)
           then collectUnbound boundCommands rest unboundCommands
      else collectUnbound boundCommands rest (unboundCommands ++ [id])
  end.

(** [unboundCommands.sort()]: the strings in ascending order of their
    characters. *)
Definition sortStrings (l : list string) : list string :=
  merge_sort String.le l.

(** The sorted list that [_getAllCommandsAsComment] prints. *)
Definition unboundCommandsOf (resolver : KeybindingResolver)
    (commands : list (string * ICommand)) : list string :=
  sortStrings (collectUnbound (getDefaultBoundCommands resolver) commands []).

Definition newline : string := String (ascii_of_nat 10) "".

(** [_getAllCommandsAsComment]; the localized text is the default one. *)
Definition _getAllCommandsAsComment (resolver : KeybindingResolver)
    (commands : list (string * ICommand)) : string :=
  let pretty := JS.join (newline +:+ "// - ") (unboundCommandsOf resolver commands) in
  "// " +:+ "Here are other available commands: " +:+ newline +:+ "// - " +:+ pretty.

(** [AbstractKeybindingService.getDefaultKeybindings] *)
Definition service_getDefaultKeybindings (resolver : KeybindingResolver)
    (commands : list (string * ICommand)) : string :=
  getDefaultKeybindings resolver +:+ newline +:+ newline
  +:+ _getAllCommandsAsComment resolver commands.

End ServiceQueries.

(** ** Reading rules: user entries and registry items *)

(** A value read from a JSON file or an extension manifest, as far as the
    checks [typeof v === 'string'] and the truthiness of [v] can tell. *)
Inductive JsValue : Type :=
| JsUndefined
| JsString (s : string)
| JsOther (truthy : bool).

Definition isString (v : JsValue) : bool :=
  match v with
  | JsString _ => true
  | _ => false
  end.

Definition valueTruthy (v : JsValue) : bool :=
  match v with
  | JsUndefined => false
  | JsString s => negb (bool_decide (s = ""))
  | JsOther t => t
  end.

(** What the workbench service takes from outside the sources: the parser
    of key descriptors behind [IOSupport.readKeybinding], the parser of
    conditions, the decoder [createKeybinding] of a non-zero key code, and
    the weights of the registry. *)
Class WorkbenchExternal `{Ext : External} : Type := {
  fromUserSettingsLabel : string → N;
  deserialize : option string → option ContextKeyExpr;
  createKeybinding : N → Keybinding;
  builtinExtension : nat → N;
  externalExtension : nat → N;
}.

Module IKeybindingItem.
Section Fields.
Context `{Ext : External}.

Record t : Type := mk {
  keybinding : N;
  command : option string;
  commandArgs : option Args;
  when : option ContextKeyExpr;
  weight1 : N;
  weight2 : nat;
}.

End Fields.
End IKeybindingItem.

Module IUserFriendlyKeybinding.
Section Fields.
Context `{Ext : External}.

(** [args] is [None] when the entry has no [args] property. *)
Record t : Type := mk {
  key : JsValue;
  command : JsValue;
  when : JsValue;
  args : option Args;
}.

End Fields.
End IUserFriendlyKeybinding.

Module ContributedKeyBinding.

Record t : Type := mk {
  command : JsValue;
  key : JsValue;
  when : JsValue;
  mac : JsValue;
  linux : JsValue;
  win : JsValue;
}.

End ContributedKeyBinding.

Module IKeybindingRule.
Section Fields.
Context `{Ext : External}.

(** [mac], [linux] and [win] hold the [primary] of the platform object, and
    are [None] when the contributed value is falsy. *)
Record t : Type := mk {
  id : string;
  when : option ContextKeyExpr;
  weight : N;
  primary : N;
  mac : option N;
  linux : option N;
  win : option N;
}.

End Fields.
End IKeybindingRule.

Section Reading.
Context `{Ext : External} `{WB : !WorkbenchExternal}.

(** [IOSupport.readKeybinding] *)
Definition readKeybinding (input : string) : N := fromUserSettingsLabel input.

(** [IOSupport.writeKeybinding] *)
Definition writeKeybinding (kb : option Keybinding) : string :=
  toUserSettingsLabel kb.

Definition stringOf (v : JsValue) : option string :=
  match v with
  | JsString s => Some s
  | _ => None
  end.

(** [IOSupport.readKeybindingItem] *)
Definition readKeybindingItem (input : IUserFriendlyKeybinding.t) (index : nat)
    : IKeybindingItem.t :=
  let key :=
    match IUserFriendlyKeybinding.key input with
    | JsString k => readKeybinding k
    | _ => 0%N
    end in
  let when :=
    match IUserFriendlyKeybinding.when input with
    | JsString w => deserialize (Some w)
    | _ => None
    end in
  let command :=
    match IUserFriendlyKeybinding.command input with
    | JsString c => Some c
    | _ => None
    end in
  let commandArgs := IUserFriendlyKeybinding.args input in
  IKeybindingItem.mk key command commandArgs when 1000%N index.

(** [NormalizedKeybindingItem.fromKeybindingItem]; [o] is the identity of
    the object it creates. *)
Definition fromKeybindingItem (o : nat) (source : IKeybindingItem.t)
    (isDef : bool) : NormalizedKeybindingItem :=
  let when := normalize <$> IKeybindingItem.when source in
  let keybinding :=
    if bool_decide (IKeybindingItem.keybinding source ≠ 0%N)
    then Some (createKeybinding (IKeybindingItem.keybinding source))
    else None in
  newNormalizedKeybindingItem o keybinding (IKeybindingItem.command source)
    (IKeybindingItem.commandArgs source) when isDef.

End Reading.

(** ** The workbench service: contributed keybindings and the cached resolver *)

Section Workbench.
Context `{Ext : External} `{WB : !WorkbenchExternal}.

Definition requireStringMessage (property : string) : string :=
  "property `" +:+ property +:+ "` is mandatory and must be of type `string`".

Definition optStringMessage (property : string) : string :=
  "property `" +:+ property +:+ "` can be omitted or must be of type `string`".

(** [v && typeof v !== 'string'] *)
Definition presentNotString (v : JsValue) : bool :=
  valueTruthy v && negb (isString v).

(** [isValidContributedKeyBinding]; a falsy [keyBinding] is [None]. Returns
    the verdict and [rejects] afterwards. *)
Definition isValidContributedKeyBinding (keyBinding : option ContributedKeyBinding.t)
    (rejects : list string) : bool * list string :=
  match keyBinding with
  | None => (false, rejects ++ ["expected non-empty value."])
  | Some kb =>
      if negb (isString (ContributedKeyBinding.command kb))
      then (false, rejects ++ [requireStringMessage "command"])
      else if negb (isString (ContributedKeyBinding.key kb))
      then (false, rejects ++ [requireStringMessage "key"])
      else if presentNotString (ContributedKeyBinding.when kb)
      then (false, rejects ++ [optStringMessage "when"])
      else if presentNotString (ContributedKeyBinding.mac kb)
      then (false, rejects ++ [optStringMessage "mac"])
      else if presentNotString (ContributedKeyBinding.linux kb)
      then (false, rejects ++ [optStringMessage "linux"])
      else if presentNotString (ContributedKeyBinding.win kb)
      then (false, rejects ++ [optStringMessage "win"])
      else (true, rejects)
  end.

(** [v && { primary: IOSupport.readKeybinding(v) }], for a platform key. *)
Definition platformPrimary (v : JsValue) : option N :=
  if valueTruthy v
  then Some (readKeybinding (default "" (stringOf v)))
  else None.

(** [_asCommandRule], called on a binding that passed the validation: its
    [command] and [key] are strings. [None] is [undefined]. *)
Definition _asCommandRule (isBuiltin : bool) (idx : nat)
    (binding : ContributedKeyBinding.t) : option IKeybindingRule.t :=
  let weight := if isBuiltin then builtinExtension idx else externalExtension idx in
  let desc :=
    IKeybindingRule.mk
      (default "" (stringOf (ContributedKeyBinding.command binding)))
      (deserialize (stringOf (ContributedKeyBinding.when binding)))
      weight
      (readKeybinding (default "" (stringOf (ContributedKeyBinding.key binding))))
      (platformPrimary (ContributedKeyBinding.mac binding))
      (platformPrimary (ContributedKeyBinding.linux binding))
      (platformPrimary (ContributedKeyBinding.win binding)) in
  if bool_decide (IKeybindingRule.primary desc = 0%N)
     && negb (bool_decide (is_Some (IKeybindingRule.mac desc)))
     && negb (bool_decide (is_Some (IKeybindingRule.linux desc)))
     && negb (bool_decide (is_Some (IKeybindingRule.win desc)))
  then None
  else Some desc.

(** The keybindings registry, as far as the service writes to it, and the
    message collector of the extension. *)
Record Contributions : Type := mkContributions {
  registered : list IKeybindingRule.t;
  collected : list string;
}.

Definition invalidKeybindingsMessage (rejects : list string) : string :=
  "Invalid `contributes." +:+ "keybindings" +:+ "`: " +:+ JS.join newline rejects.

(** [_handleKeybinding] *)
Definition _handleKeybinding (isBuiltin : bool) (idx : nat)
    (keybindings : option ContributedKeyBinding.t) (st : Contributions)
    : bool * Contributions :=
  let '(valid, rejects) := isValidContributedKeyBinding keybindings [] in
  let '(commandAdded, st) :=
    if valid then
      match keybindings ≫= _asCommandRule isBuiltin idx with
      | Some rule => (true, mkContributions (registered st ++ [rule]) (collected st))
      | None => (false, st)
      end
    else (false, st) in
  let st :=
    if bool_decide (0 < length rejects)
    then mkContributions (registered st)
           (collected st ++ [invalidKeybindingsMessage rejects])
    else st in
  (commandAdded, st).

(** What an extension contributes: one binding or an array of them. *)
Inductive Contributed : Type :=
| OneBinding (b : option ContributedKeyBinding.t)
| BindingArray (bs : list (option ContributedKeyBinding.t)).

(** The loop over the array, from index [i]. *)
Fixpoint handleArray (isBuiltin : bool) (i : nat)
    (bs : list (option ContributedKeyBinding.t)) (commandAdded : bool)
    (st : Contributions) : bool * Contributions :=
  match bs with
  | [] => (commandAdded, st)
  | b :: rest =>
      let '(added, st) := _handleKeybinding isBuiltin (i + 1) b st in
      handleArray isBuiltin (S i) rest (added || commandAdded) st
  end.

(** [_handleKeybindingsExtensionPointUser] *)
Definition _handleKeybindingsExtensionPointUser (isBuiltin : bool)
    (keybindings : Contributed) (st : Contributions) : bool * Contributions :=
  match keybindings with
  | BindingArray bs => handleArray isBuiltin 0 bs false st
  | OneBinding b => _handleKeybinding isBuiltin 1 b st
  end.

(** The fields of the workbench service around the cached resolver, with
    the telemetry events it has logged ([customKeybindingsChanged] with its
    [keyCount]) and the update events it has fired ([true] for the user
    source). *)
Record WorkbenchKeybindingService : Type := mkWorkbench {
  _cachedResolver : option KeybindingResolver;
  _firstTimeComputingResolver : bool;
  customKeybindingsChanged : list nat;
  firedUpdates : list bool;
}.

Definition newWorkbenchKeybindingService : WorkbenchKeybindingService :=
  mkWorkbench None true [] [].

(** [_safeGetConfig]; [rawConfig] is [None] when the configuration is not an
    array. *)
Definition _safeGetConfig (rawConfig : option (list IUserFriendlyKeybinding.t))
    : list IUserFriendlyKeybinding.t :=
  default [] rawConfig.

(** [WorkbenchKeybindingService.customKeybindingsCount] *)
Definition customKeybindingsCount (rawConfig : option (list IUserFriendlyKeybinding.t))
    : nat :=
  length (_safeGetConfig rawConfig).

(** [updateResolver] *)
Definition updateResolver (fromUser : bool) (svc : WorkbenchKeybindingService)
    : WorkbenchKeybindingService :=
  mkWorkbench None (_firstTimeComputingResolver svc)
    (customKeybindingsChanged svc) (firedUpdates svc ++ [fromUser]).

(** [_getExtraKeybindings]: the items read from the user entries, and the
    telemetry afterwards. *)
Definition _getExtraKeybindings (isFirstTime : bool)
    (rawConfig : option (list IUserFriendlyKeybinding.t)) (telemetry : list nat)
    : list IKeybindingItem.t * list nat :=
  let extraUserKeybindings := _safeGetConfig rawConfig in
  let telemetry :=
    if negb isFirstTime
    then telemetry ++ [length extraUserKeybindings]
    else telemetry in
  (imap (λ i k, readKeybindingItem k i) extraUserKeybindings, telemetry).

(** [_getResolver]; [registry] is what [KeybindingsRegistry.getDefaultKeybindings]
    returns. The rules created for the defaults and then for the overrides
    are new objects, numbered in the order of their creation. *)
Definition _getResolver (registry : list IKeybindingItem.t)
    (rawConfig : option (list IUserFriendlyKeybinding.t))
    (svc : WorkbenchKeybindingService)
    : KeybindingResolver * WorkbenchKeybindingService :=
  match _cachedResolver svc with
  | Some resolver => (resolver, svc)
  | None =>
      let defaults := imap (λ i k, fromKeybindingItem i k true) registry in
      let '(extra, telemetry) :=
        _getExtraKeybindings (_firstTimeComputingResolver svc) rawConfig
          (customKeybindingsChanged svc) in
      let overrides :=
        imap (λ i k, fromKeybindingItem (length registry + i) k false) extra in
      let resolver := newKeybindingResolver defaults overrides true in
      (resolver, mkWorkbench (Some resolver) false telemetry (firedUpdates svc))
  end.

(** The handler of the extension point: every extension is handled, and the
    resolver is dropped when one of them added a rule. *)
Fixpoint handleExtensions (extensions : list (bool * Contributed))
    (commandAdded : bool) (st : Contributions) : bool * Contributions :=
  match extensions with
  | [] => (commandAdded, st)
  | (isBuiltin, value) :: rest =>
      let '(added, st) := _handleKeybindingsExtensionPointUser isBuiltin value st in
      handleExtensions rest (added || commandAdded) st
  end.

Definition onExtensions (extensions : list (bool * Contributed))
    (st : Contributions) (svc : WorkbenchKeybindingService)
    : Contributions * WorkbenchKeybindingService :=
  let '(commandAdded, st) := handleExtensions extensions false st in
  (st, if commandAdded then updateResolver false svc else svc).

(** The listener of key-down events: the event is dispatched, and its
    default is prevented when the dispatcher says so. Returns whether
    [preventDefault] was called. *)
Definition onKeyDown (resolver : KeybindingResolver) (statusService : bool)
    (contextValue : ContextValue) (keybinding : N)
    (svc : AbstractKeybindingService) : bool * AbstractKeybindingService :=
  let '(shouldPreventDefault, svc) :=
    _dispatch resolver statusService contextValue keybinding svc in
  (if shouldPreventDefault then true else false, svc).

End Workbench.

(** ** Further notions: what a key sequence selects, what a command lists *)

Section FurtherNotions.
Context `{Ext : External}.

(** The rule [x] is filed where [resolve] looks for [keypress]: under the
    pending chord followed by [keypress], or, with no chord pending, under
    [keypress] as a single key-press or as the first part of a chord. *)
Definition fits (currentChord : option N) (keypress : N)
    (x : NormalizedKeybindingItem) : bool :=
  match currentChord with
  | Some chord => bool_decide (keybinding x = Some (ChordKeybinding chord keypress))
  | None => bool_decide (flatKey x = Some keypress)
  end.

(** The outcome of [resolve] when [x] is the rule it selects. *)
Definition outcomeOf (currentChord : option N) (keypress : N)
    (x : NormalizedKeybindingItem) : option IResolveResult :=
  if bool_decide (currentChord = None) && from_option isChord false (keybinding x)
  then AwaitChord keypress
  else Invoke (command x) (commandArgs x) (bubble x).

(** The later rule [y] shadows [x]: both are filed under the same key-press
    and the shadow test of the insertion of [y] succeeds on [x]. *)
Definition shadowedBy (x y : NormalizedKeybindingItem) : bool :=
  bool_decide (flatKey y = flatKey x) && shadows y x.

(** The rules of a list that the by-command index keeps: those with a
    keybinding and a non-empty command that no later rule shadows. *)
Fixpoint unshadowed (all : list NormalizedKeybindingItem)
    : list NormalizedKeybindingItem :=
  match all with
  | [] => []
  | x :: rest =>
      if bool_decide (is_Some (keybinding x)) && JS.truthy (command x)
         && negb (existsb (shadowedBy x) rest)
      then x :: unshadowed rest
      else unshadowed rest
  end.

(** The rules that can be listed for a command at all. *)
Definition listable (cmd : string) (x : NormalizedKeybindingItem) : bool :=
  bool_decide (command x = Some cmd) && JS.truthy (command x)
  && bool_decide (is_Some (keybinding x)).

(** How many times the dispatcher has disposed of a status message. *)
Definition disposals (svc : AbstractKeybindingService) : nat :=
  length (List.filter (λ e, match e with
                            | DisposeStatusMessage => true
                            | _ => false
                            end) (effects svc)).

(** The warnings that the constructor prints while it indexes [rest] after
    [seen]: each default rule with a keybinding warns about the rules before
    it, filed under the same key-press, that it shadows, the nearest first. *)
Fixpoint warningsOf (warn : bool) (seen rest : list NormalizedKeybindingItem)
    : list string :=
  match rest with
  | [] => []
  | y :: rest' =>
      (if warn && isDefault y && bool_decide (is_Some (keybinding y))
       then (λ c, conflictMessage c y)
              <$> List.filter (shadows y)
                    (reverse (List.filter
                                (λ x, bool_decide (flatKey x = flatKey y)) seen))
       else [])
      ++ warningsOf warn (seen ++ [y]) rest'
  end.

(** The lines of the canonical text for one rule, written alone and closed
    with [separator]. *)
Definition itemLines (item : NormalizedKeybindingItem) (separator : string)
    : list string :=
  _lines (writeLine separator (writeKeybindingItem (mkOutput [] "") item)).

(** The lines for a list of rules: a comma closes every rule but the last. *)
Fixpoint bodyLines (items : list NormalizedKeybindingItem) : list string :=
  match items with
  | [] => []
  | k :: rest =>
      itemLines k (match rest with [] => "" | _ => "," end) ++ bodyLines rest
  end.

(** The serialized condition that [writeKeybindingItem] prints. *)
Definition serializedWhenOf (item : NormalizedKeybindingItem) : string :=
  match when item with
  | Some w => serialize w
  | None => ""
  end.

End FurtherNotions.

(** [v] is falsy or a string: what the validation asks of an optional
    property. *)
Definition optionalString (v : JsValue) : Prop :=
  valueTruthy v = false ∨ isString v = true.

Section WorkbenchNotions.
Context `{Ext : External} `{WB : !WorkbenchExternal}.

(** A contributed binding passes the validation. *)
Definition validBinding (b : option ContributedKeyBinding.t) : bool :=
  (isValidContributedKeyBinding b []).1.

(** The rule registered for the entry [b] handled with index [idx], if any. *)
Definition ruleOfEntry (isBuiltin : bool) (idx : nat)
    (b : option ContributedKeyBinding.t) : option IKeybindingRule.t :=
  if validBinding b then b ≫= _asCommandRule isBuiltin idx else None.

(** The error reported to the collector for the entry [b], if any. *)
Definition errorOfEntry (b : option ContributedKeyBinding.t) : option string :=
  if validBinding b then None
  else Some (invalidKeybindingsMessage (isValidContributedKeyBinding b []).2).

(** The rules that [_getResolver] creates from the registry and from the
    user entries. *)
Definition defaultsOf (registry : list IKeybindingItem.t)
    : list NormalizedKeybindingItem :=
  imap (λ i k, fromKeybindingItem i k true) registry.

Definition overridesOf (registry : list IKeybindingItem.t)
    (rawConfig : option (list IUserFriendlyKeybinding.t))
    : list NormalizedKeybindingItem :=
  imap (λ i k, fromKeybindingItem (length registry + i) k false)
    (imap (λ i k, readKeybindingItem k i) (_safeGetConfig rawConfig)).

End WorkbenchNotions.

(** A parser of key descriptors and of conditions, for running the
    workbench model. *)
Module SampleWorkbench.

(** Modelled from the spec: a key descriptor that cannot be parsed is
    coerced to a disabled rule (key code 0). The descriptors known here are
    [k1] to [k3], and [k1 k2] for the chord. *)
Definition parseKey (input : string) : N :=
  if bool_decide (input = "k1") then 1%N
  else if bool_decide (input = "k2") then 2%N
  else if bool_decide (input = "k3") then 3%N
  else if bool_decide (input = "k1 k2") then 131073%N
  else 0%N.

(** Modelled from the spec: a key code above 16 bits is a chord of its low
    and high parts. *)
Definition decodeKey (n : N) : Keybinding :=
  if bool_decide (n < 65536)%N then SimpleKeybinding n
  else ChordKeybinding (n mod 65536)%N (n / 65536)%N.

(** Modelled from the spec: absent or empty text yields the absent
    condition. *)
Definition parseWhen (text : option string) : option (@ContextKeyExpr Sample.ext) :=
  match text with
  | Some (String c rest) => Some (JS.split " && " (String c rest))
  | _ => None
  end.

#[export] Instance wb : @WorkbenchExternal Sample.ext := {|
  fromUserSettingsLabel := parseKey;
  deserialize := parseWhen;
  createKeybinding := decodeKey;
  builtinExtension := λ idx, (300 + N.of_nat idx)%N;
  externalExtension := λ idx, (400 + N.of_nat idx)%N;
|}.

End SampleWorkbench.

(** ** Properties *)

Section CombineProperties.
Context `{Ext : External}.

Lemma removeTargeted_prefix kb cmd w n (l : list NormalizedKeybindingItem) :
  n ≤ length l →
  removeTargeted kb cmd w n l =
    List.filter (λ d, negb (_isTargetedForRemoval d kb cmd w)) (take n l) ++ drop n l.
Proof.
  revert l. induction n as [|j IH]; intros l Hn.
  - by rewrite take_0, drop_0.
  - destruct (lookup_lt_is_Some_2 l j ltac:(lia)) as [d Hd].
    cbn [removeTargeted]. rewrite Hd.
    rewrite (take_S_r l j d Hd), List.filter_app. cbn [List.filter].
    destruct (_isTargetedForRemoval d kb cmd w) eqn:Ht; cbn [negb].
    + rewrite IH by (rewrite length_delete by eauto; lia).
      rewrite delete_take_drop.
      rewrite take_app_le by (rewrite length_take; lia).
      rewrite take_take, Nat.min_id.
      rewrite drop_app_length' by (rewrite length_take; lia).
      by rewrite app_nil_r.
    + rewrite IH by lia.
      rewrite <- app_assoc. cbn [app].
      by rewrite (drop_S l d j Hd).
Qed.

Lemma removeTargeted_filter kb cmd w (l : list NormalizedKeybindingItem) :
  removeTargeted kb cmd w (length l) l =
    List.filter (λ d, negb (_isTargetedForRemoval d kb cmd w)) l.
Proof.
  rewrite removeTargeted_prefix by lia.
  by rewrite firstn_all, drop_all, app_nil_r.
Qed.

Lemma filter_filter_andb {A} (f g : A → bool) (l : list A) :
  List.filter f (List.filter g l) = List.filter (λ x, g x && f x) l.
Proof.
  induction l as [|x l IH]; [done|]. cbn.
  destruct (g x); cbn; [destruct (f x)|]; by rewrite IH.
Qed.

Lemma combine_loop_spec (raw defaults overrides : list NormalizedKeybindingItem) :
  combine_loop raw defaults overrides =
    (List.filter (survives raw) defaults, overrides ++ List.filter keptAsRule raw).
Proof.
  revert defaults overrides. induction raw as [|o raw IH]; intros defaults overrides.
  - cbn. f_equal; [|by rewrite app_nil_r].
    induction defaults as [|d l IHl]; [done|]. cbn. by rewrite <- IHl.
  - cbn [combine_loop List.filter]. destruct (keptAsRule o) eqn:Hk.
    + rewrite IH, <- app_assoc. cbn [app]. f_equal.
      apply List.filter_ext. intros d. unfold survives. cbn [existsb].
      by rewrite Hk.
    + rewrite IH, removeTargeted_filter, filter_filter_andb. f_equal.
      apply List.filter_ext. intros d. unfold survives, targets. cbn [existsb].
      rewrite Hk. cbn [negb andb]. by rewrite negb_orb.
Qed.

Lemma combine_spec (defaults rawOverrides : list NormalizedKeybindingItem) :
  combine defaults rawOverrides =
    List.filter (survives rawOverrides) defaults ++ List.filter keptAsRule rawOverrides.
Proof. unfold combine. by rewrite combine_loop_spec. Qed.

Lemma keptAsRule_false (o : NormalizedKeybindingItem) :
  keptAsRule o = false ↔ ∃ target, command o = Some (String "-"%char target).
Proof.
  unfold keptAsRule. destruct (command o) as [[|c rest]|]; cbn.
  - split; [done|]. by intros [? ?].
  - rewrite (bool_decide_eq_false_2 (S (String.length rest) = 0)) by done. cbn.
    destruct (decide (c = "-"%char)) as [->|Hc].
    + rewrite bool_decide_eq_true_2 by done. split; eauto.
    + rewrite bool_decide_eq_false_2 by done. split; [done|].
      intros [t Ht]. congruence.
  - split; [done|]. by intros [? ?].
Qed.

Lemma isTargetedForRemoval_spec (d : NormalizedKeybindingItem)
    (kb : option Keybinding) (cmd : string) (w : option ContextKeyExpr) :
  _isTargetedForRemoval d kb cmd w = true ↔
    command d = Some cmd
    ∧ (kb = None ∨ (∃ k, kb = Some k ∧ keybinding d = Some k))
    ∧ (w = None ∨ (∃ w' dw, w = Some w' ∧ when d = Some dw ∧ equals w' dw = true)).
Proof.
  unfold _isTargetedForRemoval.
  case_bool_decide as Hc.
  { split; [done|]. intros (? & _). done. }
  destruct kb as [k|]; cbn.
  - unfold Keybinding_equals. destruct (keybinding d) as [k'|]; cbn.
    + case_bool_decide as Hk; cbn.
      * subst k'. destruct w as [w'|].
        -- destruct (when d) as [dw|].
           ++ destruct (equals w' dw) eqn:He; cbn.
              ** split; [|done]. intros _. split; [done|]. split; [right; eauto|].
                 right. eauto.
              ** split; [done|]. intros (_ & _ & [?|(? & ? & ? & ? & ?)]); [done|].
                 simplify_eq. congruence.
           ++ split; [done|]. intros (_ & _ & [?|(? & ? & ? & ? & ?)]); done.
        -- split; [|done]. intros _. split; [done|]. split; [right; eauto|by left].
      * split; [done|]. intros (_ & [?|(? & ? & ?)] & _); [done|]. congruence.
    + split; [done|]. intros (_ & [?|(? & ? & ?)] & _); done.
  - destruct w as [w'|].
    + destruct (when d) as [dw|].
      * destruct (equals w' dw) eqn:He; cbn.
        -- split; [|done]. intros _. split; [done|]. split; [by left|]. right. eauto.
        -- split; [done|]. intros (_ & _ & [?|(? & ? & ? & ? & ?)]); [done|].
           simplify_eq. congruence.
      * split; [done|]. intros (_ & _ & [?|(? & ? & ? & ? & ?)]); done.
    + split; [|done]. intros _. split; [done|]. split; by left.
Qed.

End CombineProperties.

Section CombineClaims.
Context `{Ext : External}.

(** C4. [combine] handles the overrides in order. An override whose command
    starts with a dash is a removal directive: it deletes every default rule
    whose command is the target, whose keybinding equals the directive's (or
    the directive has none) and whose condition equals the directive's (or the
    directive has none); it is not part of the result. The other overrides
    follow the surviving defaults, in input order. *)
Theorem combine_removal_directives :
  ∀ defaults rawOverrides : list NormalizedKeybindingItem,
    combine defaults rawOverrides =
      List.filter (survives rawOverrides) defaults
      ++ List.filter keptAsRule rawOverrides
    ∧ (∀ o, keptAsRule o = false ↔
            ∃ target, command o = Some (String "-"%char target))
    ∧ (∀ d, survives rawOverrides d = false ↔
            ∃ o, o ∈ rawOverrides ∧ keptAsRule o = false ∧ targets o d = true)
    ∧ (∀ o d, targets o d = true ↔
            command d = Some (JS.substr1 (default "" (command o)))
            ∧ (keybinding o = None
               ∨ ∃ k, keybinding o = Some k ∧ keybinding d = Some k)
            ∧ (when o = None
               ∨ ∃ w dw, when o = Some w ∧ when d = Some dw ∧ equals w dw = true)).
Proof.
  intros defaults rawOverrides. split; [apply combine_spec|].
  split; [apply keptAsRule_false|]. split.
  - intros d. unfold survives. rewrite negb_false_iff, existsb_exists.
    split.
    + intros (o & Hin & Ho). apply andb_true_iff in Ho as [Hk Ht].
      exists o. rewrite list_elem_of_In. by apply negb_true_iff in Hk.
    + intros (o & Hin & Hk & Ht). exists o. rewrite <- list_elem_of_In.
      split; [done|]. by rewrite Hk, Ht.
  - intros o d. apply isTargetedForRemoval_spec.
Qed.

(** C5. Combining with no overrides gives back the defaults. *)
Theorem combine_no_overrides :
  ∀ R : list NormalizedKeybindingItem, combine R [] = R.
Proof. intros R. unfold combine. cbn. apply app_nil_r. Qed.

End CombineClaims.

Section BoundCommands.
Context `{Ext : External}.

Lemma defaultBoundCommands_checkConflict item r c :
  _defaultBoundCommands (checkConflict item r c) = _defaultBoundCommands r.
Proof.
  unfold checkConflict, _removeFromLookupMap, console_warn, set_lookupMap.
  repeat (case_match; cbn); done.
Qed.

Lemma defaultBoundCommands_foldl_checkConflict item l r :
  _defaultBoundCommands (foldl (checkConflict item) r l) = _defaultBoundCommands r.
Proof.
  revert r. induction l as [|c l IH]; intros r; [done|].
  cbn. by rewrite IH, defaultBoundCommands_checkConflict.
Qed.

Lemma defaultBoundCommands_addKeyPress keypress item r :
  _defaultBoundCommands (_addKeyPress keypress item r) = _defaultBoundCommands r.
Proof.
  unfold _addKeyPress, _addToLookupMap.
  repeat (case_match; cbn); try done;
    by rewrite defaultBoundCommands_foldl_checkConflict.
Qed.

Lemma defaultBoundCommands_indexItem r k :
  _defaultBoundCommands (indexItem r k) = _defaultBoundCommands r.
Proof.
  unfold indexItem. repeat case_match; try done;
    by rewrite defaultBoundCommands_addKeyPress.
Qed.

Lemma defaultBoundCommands_foldl_indexItem l r :
  _defaultBoundCommands (foldl indexItem r l) = _defaultBoundCommands r.
Proof.
  revert r. induction l as [|k l IH]; intros r; [done|].
  cbn. by rewrite IH, defaultBoundCommands_indexItem.
Qed.

Lemma elem_of_foldl_bound (l : list NormalizedKeybindingItem) (s : gset string) c :
  c ∈ foldl (λ s d, {[ JS.toString (command d) ]} ∪ s) s l ↔
    c ∈ s ∨ ∃ d, d ∈ l ∧ JS.toString (command d) = c.
Proof.
  revert s. induction l as [|x l IH]; intros s; cbn.
  - split; [by left|]. intros [?|(d & Hd & _)]; [done|]. by apply elem_of_nil in Hd.
  - rewrite IH. rewrite elem_of_union, elem_of_singleton. split.
    + intros [[->|?]|(d & Hd & He)].
      * right. exists x. split; [left|done].
      * by left.
      * right. exists d. split; [by right|done].
    + intros [?|(d & Hd & He)]; [left; by right|].
      apply elem_of_cons in Hd as [->|Hd]; [left; by left|].
      right. eauto.
Qed.

(** C10. The set of default-bound commands of a resolver depends on the
    defaults only: two resolvers built from the same defaults and any two
    override lists report the same set, which holds the command of every
    default rule, whatever its keybinding and whether or not a removal
    directive deletes the rule. *)
Theorem defaultBoundCommands_ignore_overrides :
  ∀ (D O1 O2 : list NormalizedKeybindingItem) (w1 w2 : bool),
    getDefaultBoundCommands (newKeybindingResolver D O1 w1)
      = getDefaultBoundCommands (newKeybindingResolver D O2 w2)
    ∧ ∀ c, c ∈ getDefaultBoundCommands (newKeybindingResolver D O1 w1) ↔
           ∃ d, d ∈ D ∧ JS.toString (command d) = c.
Proof.
  intros D O1 O2 w1 w2. unfold getDefaultBoundCommands, newKeybindingResolver.
  rewrite !defaultBoundCommands_foldl_indexItem. cbn. split; [done|].
  intros c. rewrite elem_of_foldl_bound. split; [|by right].
  intros [H|H]; [|done]. by apply not_elem_of_empty in H.
Qed.

End BoundCommands.

Section ShadowTest.
Context `{Ext : External}.

Lemma whenIsEntirelyIncluded_spec (a b : option ContextKeyExpr) :
  whenIsEntirelyIncluded true a b = true ↔
    b = None
    ∨ ∃ a' b', a = Some a' ∧ b = Some b'
               ∧ ∀ clause, clause ∈ clausesOf b' → clause ∈ clausesOf a'.
Proof.
  unfold whenIsEntirelyIncluded. destruct b as [b'|]; [|by split; [left|]].
  destruct a as [a'|].
  - rewrite forallb_forall. split.
    + intros H. right. exists a', b'. split; [done|]. split; [done|].
      intros clause Hin. apply list_elem_of_In, H in Hin.
      apply bool_decide_eq_true in Hin. by apply elem_of_list_to_set in Hin.
    + intros [?|(a0 & b0 & [= <-] & [= <-] & H)]; [done|].
      intros clause Hin. apply bool_decide_eq_true, elem_of_list_to_set, H.
      by apply list_elem_of_In.
  - split; [done|]. intros [?|(a0 & b0 & ? & _)]; done.
Qed.

Lemma checkConflict_shadows item r conflict :
  checkConflict item r conflict =
    if shadows item conflict
    then _removeFromLookupMap conflict
           (if _shouldWarnOnConflict r && isDefault item
            then console_warn (conflictMessage conflict item) r
            else r)
    else r.
Proof.
  unfold checkConflict, shadows.
  destruct (sameCommand conflict item); [done|].
  destruct (onlySharesChordStart conflict item); [done|].
  by destruct (whenIsEntirelyIncluded true (when conflict) (when item)).
Qed.

(** C1, as the code has it. While [r] is inserted into a bucket, a
    candidate [c] already there is shadowed exactly when the two commands
    differ, the two are not chords that only share their first key-press, and
    every clause of the serialized condition of [r] is a clause of the
    serialized condition of [c]. A rule [r] without condition shadows every
    such candidate; a candidate without condition is shadowed only by a rule
    without condition. The test decides what the insertion does with [c]. *)
Theorem shadow_test_clause_inclusion :
  ∀ r c : NormalizedKeybindingItem,
    (shadows r c = true ↔
       command c ≠ command r
       ∧ onlySharesChordStart c r = false
       ∧ (when r = None
          ∨ ∃ cw rw, when c = Some cw ∧ when r = Some rw
                     ∧ ∀ clause, clause ∈ clausesOf rw → clause ∈ clausesOf cw))
    ∧ ∀ st, checkConflict r st c =
              if shadows r c
              then _removeFromLookupMap c
                     (if _shouldWarnOnConflict st && isDefault r
                      then console_warn (conflictMessage c r) st
                      else st)
              else st.
Proof.
  intros r c. split; [|intros st; apply checkConflict_shadows].
  unfold shadows, sameCommand.
  rewrite !andb_true_iff, !negb_true_iff, bool_decide_eq_false.
  rewrite whenIsEntirelyIncluded_spec. tauto.
Qed.

End ShadowTest.

Section IndexProperties.
Context `{Ext : External}.

(** *** What the insertion leaves alone *)

Lemma checkConflict_frame item r c :
  _map (checkConflict item r c) = _map r
  ∧ _chords (checkConflict item r c) = _chords r
  ∧ _shouldWarnOnConflict (checkConflict item r c) = _shouldWarnOnConflict r.
Proof.
  unfold checkConflict, _removeFromLookupMap, console_warn, set_lookupMap.
  repeat (case_match; cbn); done.
Qed.

Lemma foldl_checkConflict_frame item l r :
  _map (foldl (checkConflict item) r l) = _map r
  ∧ _chords (foldl (checkConflict item) r l) = _chords r
  ∧ _shouldWarnOnConflict (foldl (checkConflict item) r l) = _shouldWarnOnConflict r.
Proof.
  revert r. induction l as [|c l IH]; intros r; [done|].
  cbn. destruct (IH (checkConflict item r c)) as (-> & -> & ->).
  apply checkConflict_frame.
Qed.

Lemma addToLookupMap_frame item r :
  _map (_addToLookupMap item r) = _map r
  ∧ _chords (_addToLookupMap item r) = _chords r
  ∧ _shouldWarnOnConflict (_addToLookupMap item r) = _shouldWarnOnConflict r
  ∧ console (_addToLookupMap item r) = console r.
Proof. unfold _addToLookupMap. repeat (case_match; cbn); done. Qed.

Lemma map_addKeyPress keypress item r :
  _map (_addKeyPress keypress item r) =
    <[keypress := flatBucket r keypress ++ [item]]> (_map r).
Proof.
  unfold _addKeyPress, flatBucket.
  destruct (_map r !! keypress) as [conflicts|] eqn:Hm; cbn.
  - destruct (addToLookupMap_frame item
      (set_map (λ m, <[keypress := conflicts ++ [item]]> m)
         (foldl (checkConflict item) r (reverse conflicts)))) as (-> & _).
    cbn. by destruct (foldl_checkConflict_frame item (reverse conflicts) r) as (-> & _).
  - by destruct (addToLookupMap_frame item
      (set_map (λ m, <[keypress := [item]]> m) r)) as (-> & _).
Qed.

Lemma chords_addKeyPress keypress item r :
  _chords (_addKeyPress keypress item r) = _chords r.
Proof.
  unfold _addKeyPress.
  destruct (_map r !! keypress) as [conflicts|]; cbn.
  - destruct (addToLookupMap_frame item
      (set_map (λ m, <[keypress := conflicts ++ [item]]> m)
         (foldl (checkConflict item) r (reverse conflicts)))) as (_ & -> & _).
    cbn. by destruct (foldl_checkConflict_frame item (reverse conflicts) r) as (_ & -> & _).
  - by destruct (addToLookupMap_frame item
      (set_map (λ m, <[keypress := [item]]> m) r)) as (_ & -> & _).
Qed.

(** *** The buckets of the index *)

Lemma flatBucket_indexItem r x k :
  flatBucket (indexItem r x) k =
    flatBucket r k ++ (if bool_decide (flatKey x = Some k) then [x] else []).
Proof.
  unfold indexItem, flatKey.
  destruct (keybinding x) as [[v|f c]|]; cbn.
  - unfold flatBucket at 1. rewrite map_addKeyPress.
    destruct (decide (v = k)) as [->|Hne].
    + rewrite lookup_insert_eq, bool_decide_eq_true_2 by done. done.
    + rewrite lookup_insert_ne, bool_decide_eq_false_2 by congruence.
      by rewrite app_nil_r.
  - unfold flatBucket at 1. rewrite map_addKeyPress.
    destruct (decide (f = k)) as [->|Hne].
    + rewrite lookup_insert_eq, bool_decide_eq_true_2 by done. done.
    + rewrite lookup_insert_ne, bool_decide_eq_false_2 by congruence.
      by rewrite app_nil_r.
  - rewrite bool_decide_eq_false_2 by done. by rewrite app_nil_r.
Qed.

Lemma chordBucket_indexItem r x k1 k2 :
  chordBucket (indexItem r x) k1 k2 =
    chordBucket r k1 k2
    ++ (if bool_decide (keybinding x = Some (ChordKeybinding k1 k2)) then [x] else []).
Proof.
  unfold indexItem, chordBucket.
  destruct (keybinding x) as [[v|f c]|]; cbn.
  - rewrite chords_addKeyPress, bool_decide_eq_false_2 by done.
    by rewrite app_nil_r.
  - rewrite chords_addKeyPress. cbn.
    destruct (decide (f = k1)) as [->|Hf].
    + rewrite lookup_insert_eq. cbn.
      destruct (decide (c = k2)) as [->|Hc].
      * by rewrite lookup_insert_eq, bool_decide_eq_true_2.
      * rewrite lookup_insert_ne, bool_decide_eq_false_2 by congruence.
        by rewrite app_nil_r.
    + rewrite lookup_insert_ne, bool_decide_eq_false_2 by congruence.
      by rewrite app_nil_r.
  - rewrite bool_decide_eq_false_2 by done. by rewrite app_nil_r.
Qed.

Lemma flatBucket_foldl_indexItem all r k :
  flatBucket (foldl indexItem r all) k =
    flatBucket r k ++ List.filter (λ x, bool_decide (flatKey x = Some k)) all.
Proof.
  revert r. induction all as [|x all IH]; intros r; cbn.
  - by rewrite app_nil_r.
  - rewrite IH, flatBucket_indexItem, <- app_assoc.
    by destruct (bool_decide (flatKey x = Some k)).
Qed.

Lemma chordBucket_foldl_indexItem all r k1 k2 :
  chordBucket (foldl indexItem r all) k1 k2 =
    chordBucket r k1 k2
    ++ List.filter (λ x, bool_decide (keybinding x = Some (ChordKeybinding k1 k2))) all.
Proof.
  revert r. induction all as [|x all IH]; intros r; cbn.
  - by rewrite app_nil_r.
  - rewrite IH, chordBucket_indexItem, <- app_assoc.
    by destruct (bool_decide (keybinding x = Some (ChordKeybinding k1 k2))).
Qed.

(** The buckets of a new resolver are the rules of the combined list, in
    order. *)
Lemma flatBucket_new D O w k :
  flatBucket (newKeybindingResolver D O w) k =
    List.filter (λ x, bool_decide (flatKey x = Some k)) (combine D O).
Proof.
  unfold newKeybindingResolver. rewrite flatBucket_foldl_indexItem.
  unfold flatBucket. cbn. by rewrite lookup_empty.
Qed.

Lemma chordBucket_new D O w k1 k2 :
  chordBucket (newKeybindingResolver D O w) k1 k2 =
    List.filter (λ x, bool_decide (keybinding x = Some (ChordKeybinding k1 k2)))
      (combine D O).
Proof.
  unfold newKeybindingResolver. rewrite chordBucket_foldl_indexItem.
  unfold chordBucket. cbn. by rewrite lookup_empty.
Qed.

(** *** Resolution in terms of the buckets *)

Lemma winner_candidates r context currentChord keypress :
  winner r context currentChord keypress =
    findLastMatching context (reverse (candidates r currentChord keypress)).
Proof.
  unfold winner, lookupMapFor, candidates, chordBucket, flatBucket, _findCommand.
  destruct currentChord as [chord|]; cbn.
  - destruct (_chords r !! chord) as [chords|]; cbn.
    + by destruct (chords !! keypress).
    + by rewrite lookup_empty.
  - by destruct (_map r !! keypress).
Qed.

Lemma resolve_winner r context currentChord keypress :
  resolve r context currentChord keypress =
    match winner r context currentChord keypress with
    | None => NoMatch
    | Some result =>
        if bool_decide (currentChord = None)
           && from_option isChord false (keybinding result)
        then AwaitChord keypress
        else Invoke (command result) (commandArgs result) (bubble result)
    end.
Proof.
  unfold resolve, winner.
  destruct (lookupMapFor r currentChord keypress) as [lm|]; [|done]. cbn.
  by destruct (_findCommand context lm).
Qed.



End IndexProperties.

Section LookupProperties.
Context `{Ext : External}.

Lemma lookupKeybindings_entries r cmd :
  lookupKeybindings r cmd = reverse (entries r cmd).
Proof.
  unfold lookupKeybindings, entries.
  destruct (_lookupMap r !! cmd) as [items|]; [|done]. cbn.
  case_bool_decide as Hlen; [|done].
  by apply length_zero_iff_nil in Hlen as ->.
Qed.

Lemma entries_addToLookupMap item r cmd :
  entries (_addToLookupMap item r) cmd =
    entries r cmd
    ++ (if JS.truthy (command item) && bool_decide (command item = Some cmd)
        then [item] else []).
Proof.
  unfold _addToLookupMap, entries.
  destruct (command item) as [c|] eqn:Hc; [|by rewrite app_nil_r].
  destruct (JS.truthy (Some c)); cbn [negb andb]; [|by rewrite app_nil_r].
  destruct (decide (c = cmd)) as [->|Hne].
  - rewrite bool_decide_eq_true_2 by done.
    destruct (_lookupMap r !! cmd) as [arr|] eqn:Ha; cbn;
      by rewrite lookup_insert_eq.
  - rewrite bool_decide_eq_false_2 by congruence. rewrite app_nil_r.
    destruct (_lookupMap r !! c) as [arr|] eqn:Ha; cbn;
      by rewrite lookup_insert_ne.
Qed.

Lemma entries_removeFromLookupMap item r cmd :
  entries (_removeFromLookupMap item r) cmd =
    if bool_decide (command item = Some cmd)
    then spliceFirstSame item (entries r cmd)
    else entries r cmd.
Proof.
  unfold _removeFromLookupMap, entries.
  destruct (command item) as [c|] eqn:Hc;
    [|by rewrite bool_decide_eq_false_2].
  destruct (decide (c = cmd)) as [->|Hne].
  - rewrite bool_decide_eq_true_2 by done.
    destruct (_lookupMap r !! cmd) as [arr|] eqn:Ha; cbn.
    + by rewrite lookup_insert_eq.
    + by rewrite Ha.
  - rewrite bool_decide_eq_false_2 by congruence.
    destruct (_lookupMap r !! c) as [arr|] eqn:Ha; cbn; [|done].
    by rewrite lookup_insert_ne.
Qed.

Lemma entries_checkConflict item r c cmd :
  entries (checkConflict item r c) cmd =
    if shadows item c && bool_decide (command c = Some cmd)
    then spliceFirstSame c (entries r cmd)
    else entries r cmd.
Proof.
  rewrite checkConflict_shadows. destruct (shadows item c); [|done].
  rewrite entries_removeFromLookupMap. cbn [andb].
  by destruct (_shouldWarnOnConflict r && isDefault item).
Qed.

Lemma entries_addKeyPress keypress item r cmd :
  entries (_addKeyPress keypress item r) cmd =
    entries (foldl (checkConflict item) r (reverse (flatBucket r keypress))) cmd
    ++ (if JS.truthy (command item) && bool_decide (command item = Some cmd)
        then [item] else []).
Proof.
  unfold _addKeyPress, flatBucket.
  destruct (_map r !! keypress) as [conflicts|]; cbn [default];
    by rewrite entries_addToLookupMap.
Qed.

Lemma spliceFirstSame_head item rest :
  spliceFirstSame item (item :: rest) = rest.
Proof. cbn. unfold sameObject. by rewrite bool_decide_eq_true_2. Qed.

End LookupProperties.

(** C1, as stated, fails: with the conditions [a] for the candidate and
    [a && b] for the inserted rule, every clause of the candidate's condition
    is a clause of the inserted rule's, and the candidate is not shadowed;
    with the two conditions exchanged it is shadowed although [b] is not a
    clause of the inserted rule; and a candidate without condition is not
    shadowed by a rule with one. *)
Lemma shadow_test_not_as_stated :
  let ca := Sample.rule 0 (SimpleKeybinding 1) "X" (Some ["a"]) true in
  let cab := Sample.rule 0 (SimpleKeybinding 1) "X" (Some ["a"; "b"]) true in
  let cnone := Sample.rule 0 (SimpleKeybinding 1) "X" None true in
  let ra := Sample.rule 1 (SimpleKeybinding 1) "Y" (Some ["a"]) false in
  let rab := Sample.rule 1 (SimpleKeybinding 1) "Y" (Some ["a"; "b"]) false in
  (includedAsStated (when ca) (when rab) ∧ shadows rab ca = false)
  ∧ (¬ includedAsStated (when cab) (when ra) ∧ shadows ra cab = true)
  ∧ (includedAsStated (when cnone) (when ra) ∧ shadows ra cnone = false).
Proof.
  cbn zeta. repeat split.
  - cbn. intros clause Hc. vm_compute in Hc. vm_compute.
    apply list_elem_of_singleton in Hc as ->. left.
  - cbn. intros H. specialize (H "b"). vm_compute in H.
    assert (Hb : "b" ∈ ["a"; "b"]) by (right; left).
    apply H, list_elem_of_singleton in Hb. discriminate.
Qed.

Section TotalShadow.
Context `{Ext : External}.

Lemma entries_two_rules (r0 : KeybindingResolver) (A B : NormalizedKeybindingItem) k cmd :
  _map r0 = ∅ → _lookupMap r0 = ∅ →
  keybinding A = Some (SimpleKeybinding k) →
  keybinding B = Some (SimpleKeybinding k) →
  shadows B A = true →
  entries (foldl indexItem r0 [A; B]) cmd =
    if JS.truthy (command B) && bool_decide (command B = Some cmd) then [B] else [].
Proof.
  intros Hm Hl HA HB Hsh.
  assert (Hne : command A ≠ command B).
  { pose proof Hsh as H. unfold shadows, sameCommand in H.
    rewrite !andb_true_iff, !negb_true_iff, bool_decide_eq_false in H. tauto. }
  change (foldl indexItem r0 [A; B]) with (indexItem (indexItem r0 A) B).
  unfold indexItem. rewrite HA, HB.
  rewrite entries_addKeyPress.
  assert (Hb : flatBucket (_addKeyPress k A r0) k = [A]).
  { unfold flatBucket. rewrite map_addKeyPress, lookup_insert_eq.
    unfold flatBucket. by rewrite Hm, lookup_empty. }
  rewrite Hb. change (reverse [A]) with [A]. cbn [foldl].
  rewrite entries_checkConflict, Hsh, entries_addKeyPress. cbn [andb].
  assert (Hb0 : flatBucket r0 k = []).
  { unfold flatBucket. by rewrite Hm, lookup_empty. }
  rewrite Hb0. cbn [reverse rev_append foldl].
  change (foldl (checkConflict A) r0 (reverse [])) with r0.
  assert (He : entries r0 cmd = []).
  { unfold entries. by rewrite Hl, lookup_empty. }
  rewrite He. cbn [app].
  case_bool_decide as HcA.
  - assert (HcB : command B ≠ Some cmd) by congruence.
    rewrite (bool_decide_eq_false_2 _ HcB), andb_false_r, app_nil_r.
    destruct (JS.truthy (command A)); cbn [andb]; [|done].
    apply spliceFirstSame_head.
  - by rewrite andb_false_r.
Qed.

(** C2, as the code has it. Rule [A] and then rule [B] are indexed under
    the same single key-press, with different commands, and every clause of
    the condition of [B] is a clause of the condition of [A] (or [B] has no
    condition). Then no command lists [A] among its keybindings any more, a
    context in which the condition of [B] holds resolves to the command of
    [B], and a context in which it does not hold is resolved against [A]
    alone: its command when its condition holds, no match otherwise. *)
Theorem later_rule_shadows_earlier :
  ∀ (D O : list NormalizedKeybindingItem) (w : bool)
    (A B : NormalizedKeybindingItem) (k : N),
    combine D O = [A; B] →
    keybinding A = Some (SimpleKeybinding k) →
    keybinding B = Some (SimpleKeybinding k) →
    command A ≠ command B →
    (when B = None
     ∨ ∃ c1 c2, when A = Some c1 ∧ when B = Some c2
                ∧ ∀ clause, clause ∈ clausesOf c2 → clause ∈ clausesOf c1) →
    let R := newKeybindingResolver D O w in
    (∀ X, command A = Some X → lookupKeybindings R X = [])
    ∧ (∀ cmd, A ∉ lookupKeybindings R cmd)
    ∧ (∀ context, matchesContext context B = true →
         resolve R context None k = Invoke (command B) (commandArgs B) (bubble B))
    ∧ (∀ context, matchesContext context B = false →
         resolve R context None k =
           if matchesContext context A
           then Invoke (command A) (commandArgs A) (bubble A)
           else NoMatch).
Proof.
  intros D O w A B k Hall HA HB Hne Hincl R.
  assert (Hsh : shadows B A = true).
  { unfold shadows, sameCommand, onlySharesChordStart. rewrite HA, HB.
    rewrite bool_decide_eq_false_2 by done. cbn.
    by apply whenIsEntirelyIncluded_spec. }
  assert (Hent : ∀ cmd, entries R cmd =
            if JS.truthy (command B) && bool_decide (command B = Some cmd)
            then [B] else []).
  { intros cmd. subst R. unfold newKeybindingResolver. rewrite Hall.
    by apply entries_two_rules with (k := k). }
  assert (Hbucket : candidates R None k = [A; B]).
  { subst R. cbn [candidates]. rewrite flatBucket_new, Hall. cbn.
    unfold flatKey. rewrite HA, HB. cbn.
    by rewrite bool_decide_eq_true_2. }
  split; [|split; [|split]].
  - intros X HX. rewrite lookupKeybindings_entries, Hent.
    rewrite (bool_decide_eq_false_2 (command B = Some X)) by congruence.
    by rewrite andb_false_r.
  - intros cmd. rewrite lookupKeybindings_entries, Hent.
    destruct (JS.truthy (command B) && bool_decide (command B = Some cmd)).
    + change (reverse [B]) with [B]. rewrite list_elem_of_singleton.
      intros ->. done.
    + apply not_elem_of_nil.
  - intros context HmB. rewrite resolve_winner, winner_candidates, Hbucket.
    change (reverse [A; B]) with [B; A]. cbn [findLastMatching].
    unfold matchesContext in HmB. rewrite HmB. cbn [negb]. by rewrite HB.
  - intros context HmB. rewrite resolve_winner, winner_candidates, Hbucket.
    change (reverse [A; B]) with [B; A]. cbn [findLastMatching].
    unfold matchesContext in *. rewrite HmB. cbn [negb].
    destruct (contextMatchesRules context (when A)); [|done].
    cbn [negb]. by rewrite HA.
Qed.

End TotalShadow.

Lemma later_rule_shadows_earlier_witness :
  let A := Sample.rule 0 (SimpleKeybinding 1) "X" (Some ["a"; "b"]) true in
  let B := Sample.rule 1 (SimpleKeybinding 1) "Y" (Some ["a"]) false in
  let R := newKeybindingResolver [A] [B] true in
  (∀ X, command A = Some X → lookupKeybindings R X = [])
  ∧ (∀ cmd, A ∉ lookupKeybindings R cmd)
  ∧ (∀ context, matchesContext context B = true →
       resolve R context None 1%N = Invoke (command B) (commandArgs B) (bubble B))
  ∧ (∀ context, matchesContext context B = false →
       resolve R context None 1%N =
         if matchesContext context A
         then Invoke (command A) (commandArgs A) (bubble A)
         else NoMatch).
Proof.
  intros A B R.
  apply (later_rule_shadows_earlier [A] [B] true A B 1%N).
  - reflexivity.
  - reflexivity.
  - reflexivity.
  - discriminate.
  - right. exists ["a"; "b"], ["a"]. split; [reflexivity|]. split; [reflexivity|].
    intros clause Hc. vm_compute in Hc. vm_compute.
    apply list_elem_of_singleton in Hc as ->. left.
Defined.

(** C2, as stated, fails: [A] is bound to [X] under the condition [a] and
    [B], inserted after it on the same key-press, to [Y] under [a && b]. The
    clauses of [A] are among those of [B], yet [X] still lists [A], and a
    context satisfying [a] but not [b] resolves to [X]. *)
Lemma subset_condition_does_not_shadow :
  let A := Sample.rule 0 (SimpleKeybinding 1) "X" (Some ["a"]) true in
  let B := Sample.rule 1 (SimpleKeybinding 1) "Y" (Some ["a"; "b"]) false in
  let R := newKeybindingResolver [A] [B] true in
  includedAsStated (when A) (when B)
  ∧ lookupKeybindings R "X" = [A]
  ∧ matchesContext (Sample.context ["a"]) A = true
  ∧ matchesContext (Sample.context ["a"]) B = false
  ∧ resolve R (Sample.context ["a"]) None 1%N = Invoke (Some "X") None false.
Proof.
  cbn zeta. split; [|by vm_compute].
  cbn. intros clause Hc. vm_compute in Hc. vm_compute.
  apply list_elem_of_singleton in Hc as ->. left.
Qed.

Section ConflictWarnings.
Context `{Ext : External}.

Lemma console_checkConflict item r c :
  console (checkConflict item r c) =
    console r
    ++ (if _shouldWarnOnConflict r && isDefault item && shadows item c
        then [conflictMessage c item] else []).
Proof.
  rewrite checkConflict_shadows.
  destruct (shadows item c); [|by rewrite andb_false_r, app_nil_r].
  rewrite andb_true_r.
  unfold _removeFromLookupMap.
  destruct (_shouldWarnOnConflict r && isDefault item);
    repeat (case_match; cbn); by rewrite ?app_nil_r.
Qed.

Lemma console_foldl_checkConflict item l r :
  console (foldl (checkConflict item) r l) =
    console r
    ++ (if _shouldWarnOnConflict r && isDefault item
        then (λ c, conflictMessage c item) <$> List.filter (shadows item) l
        else []).
Proof.
  revert r. induction l as [|c l IH]; intros r; cbn [foldl List.filter].
  - destruct (_shouldWarnOnConflict r && isDefault item); by rewrite app_nil_r.
  - rewrite IH, console_checkConflict.
    destruct (checkConflict_frame item r c) as (_ & _ & ->).
    rewrite <- app_assoc. f_equal.
    destruct (_shouldWarnOnConflict r && isDefault item); [|done].
    cbn [andb]. by destruct (shadows item c).
Qed.

Lemma console_addKeyPress keypress item r :
  console (_addKeyPress keypress item r) =
    console r
    ++ (if _shouldWarnOnConflict r && isDefault item
        then (λ c, conflictMessage c item)
               <$> List.filter (shadows item) (reverse (flatBucket r keypress))
        else []).
Proof.
  unfold _addKeyPress, flatBucket.
  destruct (_map r !! keypress) as [conflicts|]; cbn [default].
  - destruct (addToLookupMap_frame item
      (set_map (λ m, <[keypress := conflicts ++ [item]]> m)
         (foldl (checkConflict item) r (reverse conflicts)))) as (_ & _ & _ & ->).
    cbn [set_map console]. apply console_foldl_checkConflict.
  - destruct (addToLookupMap_frame item
      (set_map (λ m, <[keypress := [item]]> m) r)) as (_ & _ & _ & ->).
    cbn. destruct (_shouldWarnOnConflict r && isDefault item); by rewrite app_nil_r.
Qed.

(** *** The warnings do not change the index *)

Lemma indexOf_checkConflict item r r' c :
  indexOf r = indexOf r' →
  indexOf (checkConflict item r c) = indexOf (checkConflict item r' c).
Proof.
  destruct r, r'. unfold indexOf. cbn. intros [= -> -> -> -> ->].
  rewrite !checkConflict_shadows. destruct (shadows item c); [|done].
  unfold _removeFromLookupMap, console_warn, set_lookupMap. cbn.
  destruct (_shouldWarnOnConflict0 && isDefault item),
           (_shouldWarnOnConflict1 && isDefault item);
    cbn; destruct (command c) as [cmd|]; cbn; try done;
    by destruct (_lookupMap1 !! cmd).
Qed.

Lemma indexOf_foldl_checkConflict item l r r' :
  indexOf r = indexOf r' →
  indexOf (foldl (checkConflict item) r l) = indexOf (foldl (checkConflict item) r' l).
Proof.
  revert r r'. induction l as [|c l IH]; intros r r' H; [done|].
  cbn. by apply IH, indexOf_checkConflict.
Qed.

Lemma indexOf_set_map f r r' :
  indexOf r = indexOf r' → indexOf (set_map f r) = indexOf (set_map f r').
Proof. destruct r, r'. unfold indexOf. cbn. by intros [= -> -> -> -> ->]. Qed.

Lemma indexOf_set_chords f r r' :
  indexOf r = indexOf r' → indexOf (set_chords f r) = indexOf (set_chords f r').
Proof. destruct r, r'. unfold indexOf. cbn. by intros [= -> -> -> -> ->]. Qed.

Lemma indexOf_addToLookupMap item r r' :
  indexOf r = indexOf r' →
  indexOf (_addToLookupMap item r) = indexOf (_addToLookupMap item r').
Proof.
  destruct r, r'. unfold indexOf. cbn. intros [= -> -> -> -> ->].
  unfold _addToLookupMap, set_lookupMap. cbn.
  repeat (case_match; cbn); done.
Qed.

Lemma indexOf_addKeyPress keypress item r r' :
  indexOf r = indexOf r' →
  indexOf (_addKeyPress keypress item r) = indexOf (_addKeyPress keypress item r').
Proof.
  intros H. unfold _addKeyPress.
  assert (Hm : _map r = _map r') by (unfold indexOf in H; congruence).
  rewrite Hm. destruct (_map r' !! keypress) as [conflicts|].
  - by apply indexOf_addToLookupMap, indexOf_set_map, indexOf_foldl_checkConflict.
  - by apply indexOf_addToLookupMap, indexOf_set_map.
Qed.

Lemma indexOf_indexItem r r' x :
  indexOf r = indexOf r' → indexOf (indexItem r x) = indexOf (indexItem r' x).
Proof.
  intros H. unfold indexItem.
  assert (Hc : _chords r = _chords r') by (unfold indexOf in H; congruence).
  destruct (keybinding x) as [[v|f c]|]; [| |done].
  - by apply indexOf_addKeyPress.
  - rewrite Hc. by apply indexOf_addKeyPress, indexOf_set_chords.
Qed.

Lemma indexOf_foldl_indexItem all r r' :
  indexOf r = indexOf r' →
  indexOf (foldl indexItem r all) = indexOf (foldl indexItem r' all).
Proof.
  revert r r'. induction all as [|x all IH]; intros r r' H; [done|].
  cbn. by apply IH, indexOf_indexItem.
Qed.

(** C3, as the code has it. While a rule is inserted into a bucket, one
    warning is printed for each candidate it shadows, from the last candidate
    to the first, exactly when warnings are enabled and the inserted
    (shadowing) rule is a default rule; the provenance of the shadowed rule
    is not consulted. No warning is fatal: the index built with warnings
    enabled is the index built with warnings disabled. *)
Theorem warning_when_default_rule_shadows :
  ∀ (keypress : N) (item : NormalizedKeybindingItem) (r : KeybindingResolver)
    (D O : list NormalizedKeybindingItem),
    console (_addKeyPress keypress item r) =
      console r
      ++ (if _shouldWarnOnConflict r && isDefault item
          then (λ c, conflictMessage c item)
                 <$> List.filter (shadows item) (reverse (flatBucket r keypress))
          else [])
    ∧ indexOf (newKeybindingResolver D O true)
        = indexOf (newKeybindingResolver D O false).
Proof.
  intros keypress item r D O. split; [apply console_addKeyPress|].
  unfold newKeybindingResolver. by apply indexOf_foldl_indexItem.
Qed.

End ConflictWarnings.

(** C3, as stated, fails. The default rule [A] is shadowed by the override
    [B] and nothing is printed; the default rule [A] is shadowed by the
    default rule [B'] and a warning is printed. *)
Lemma warning_not_for_override :
  let A := Sample.rule 0 (SimpleKeybinding 1) "X" None true in
  let B := Sample.rule 1 (SimpleKeybinding 1) "Y" None false in
  let B' := Sample.rule 1 (SimpleKeybinding 1) "Y" None true in
  (shadows B A = true ∧ isDefault A = true ∧ isDefault B = false
   ∧ console (newKeybindingResolver [A] [B] true) = [])
  ∧ (shadows B' A = true ∧ isDefault A = true ∧ isDefault B' = true
     ∧ console (newKeybindingResolver [A; B'] [] true)
         = ["Conflict detected, command `X` cannot be triggered by k1 due to Y"]).
Proof. cbn zeta. by vm_compute. Qed.

Section Dispatcher.
Context `{Ext : External}.

Lemma resolve_cases r context currentChord keypress :
  resolve r context currentChord keypress = NoMatch
  ∨ (currentChord = None
     ∧ resolve r context currentChord keypress = AwaitChord keypress)
  ∨ ∃ cmd args b, resolve r context currentChord keypress = Invoke cmd args b.
Proof.
  rewrite resolve_winner.
  destruct (winner r context currentChord keypress) as [result|]; [|by left].
  right. case_bool_decide as Hc; cbn [andb].
  - destruct (from_option isChord false (keybinding result)); [by left|].
    right. eauto.
  - right. eauto.
Qed.

Lemma dispatch_modifier R status context key svc :
  isModifierKey key = true →
  _dispatch R status context key svc = (false, svc).
Proof. intros H. unfold _dispatch. by rewrite H. Qed.

Lemma dispatch_enterChord R status context key svc chord :
  isModifierKey key = false →
  resolve R context (_currentChord svc) key ≫= enterChord = Some chord →
  fst (_dispatch R status context key svc) = true
  ∧ _currentChord (snd (_dispatch R status context key svc)) = Some chord
  ∧ executed (snd (_dispatch R status context key svc)) = executed svc.
Proof.
  intros Hk Hr. unfold _dispatch, service_resolve. rewrite Hk, Hr.
  destruct status; cbn; [|done].
  unfold executed. cbn. rewrite omap_app. cbn. by rewrite app_nil_r.
Qed.

Lemma dispatch_complete R status context key svc :
  isModifierKey key = false →
  resolve R context (_currentChord svc) key ≫= enterChord = None →
  let rr := resolve R context (_currentChord svc) key in
  fst (_dispatch R status context key svc) =
    (status && bool_decide (is_Some (_currentChord svc)) && negb (hasCommand rr))
    || (hasCommand rr && negb (from_option resultBubble true rr))
  ∧ _currentChord (snd (_dispatch R status context key svc)) = None
  ∧ executed (snd (_dispatch R status context key svc))
      = executed svc ++ executionOf rr.
Proof.
  intros Hk Hr rr. unfold _dispatch, service_resolve. rewrite Hk, Hr.
  fold rr. unfold executed, executionOf, hasCommand.
  destruct svc as [cur msg eff]. cbn [_currentChord _currentChordStatusMessage effects].
  destruct rr as [res|]; cbn [from_option].
  - destruct (JS.truthy (commandId res)) eqn:Ht; cbn [negb];
      destruct cur as [c|], status, msg; cbn;
      rewrite ?andb_false_r, ?omap_app, ?app_nil_r; cbn;
      rewrite ?app_nil_r; try done;
      by destruct (resultBubble res).
  - destruct cur as [c|], status, msg; cbn;
      rewrite ?omap_app, ?app_nil_r; cbn; by rewrite ?app_nil_r.
Qed.

End Dispatcher.

Section DispatcherClaims.
Context `{Ext : External}.

(** C8, as the code has it. The dispatcher asks for default key handling
    to be suppressed exactly when the key-press is not modifier-only and
    either it starts a chord, or a non-empty command is invoked with
    [bubble = false], or a status bar service is attached and a pending chord
    ends without a command (no match, or a match with an empty command). *)
Theorem suppress_default_handling :
  ∀ (R : KeybindingResolver) (status : bool) (context : ContextValue)
    (key : N) (svc : AbstractKeybindingService),
    let rr := resolve R context (_currentChord svc) key in
    fst (_dispatch R status context key svc) = true ↔
      isModifierKey key = false
      ∧ ((∃ k, rr = AwaitChord k)
         ∨ (∃ cmd args, JS.truthy cmd = true ∧ rr = Invoke cmd args false)
         ∨ (status = true ∧ is_Some (_currentChord svc) ∧ hasCommand rr = false)).
Proof.
  intros R status context key svc rr.
  destruct (isModifierKey key) eqn:Hk.
  { rewrite dispatch_modifier by done. cbn. split; [done|]. by intros [? _]. }
  destruct (resolve_cases R context (_currentChord svc) key)
    as [Hr|[[Hidle Hr]|(cmd & args & b & Hr)]].
  - destruct (dispatch_complete R status context key svc Hk) as (-> & _).
    { by rewrite Hr. }
    subst rr. rewrite Hr. cbn. rewrite orb_false_r, andb_true_r, andb_true_iff.
    rewrite bool_decide_eq_true. split.
    + intros [-> Hs]. split; [done|]. right. right. done.
    + intros [_ [[k ?]|[(c & a & _ & ?)|(-> & Hs & _)]]]; done.
  - destruct (dispatch_enterChord R status context key svc key Hk) as (-> & _).
    { by rewrite Hr. }
    subst rr. rewrite Hr. split; [|done]. intros _. split; [done|]. left. eauto.
  - destruct (dispatch_complete R status context key svc Hk) as (-> & _).
    { by rewrite Hr. }
    subst rr. rewrite Hr. cbn.
    rewrite orb_true_iff, !andb_true_iff, !negb_true_iff, bool_decide_eq_true.
    split.
    + intros [[[-> Hs] Ht]|[Ht ->]].
      * split; [done|]. right. right. done.
      * split; [done|]. right. left. eauto.
    + intros [_ [[k ?]|[(c & a & Ht & Heq)|(-> & Hs & Ht)]]]; [done| |].
      * right. unfold Invoke in Heq. by simplify_eq.
      * left. done.
Qed.

(** C7, as the code has it. A raw command that starts with a caret is
    stored without the caret and with [bubble = true]. When the rest of the
    command is not empty and the rule is selected for a key-press that is not
    the first press of its own chord, the result is an invocation of the
    command with [bubble = true], and the dispatcher does not ask for default
    handling to be suppressed. *)
Theorem caret_command_bubbles :
  ∀ (o : nat) (kb : option Keybinding) (rest : string) (args : option Args)
    (w : option ContextKeyExpr) (isDef : bool),
    let item :=
      newNormalizedKeybindingItem o kb (Some (String "^"%char rest)) args w isDef in
    command item = Some rest
    ∧ bubble item = true
    ∧ ∀ (R : KeybindingResolver) (status : bool) (context : ContextValue)
        (key : N) (svc : AbstractKeybindingService),
        rest ≠ "" →
        winner R context (_currentChord svc) key = Some item →
        ¬ (_currentChord svc = None ∧ from_option isChord false kb = true) →
        resolve R context (_currentChord svc) key = Invoke (Some rest) args true
        ∧ fst (_dispatch R status context key svc) = false.
Proof.
  intros o kb rest args w isDef item.
  split; [done|]. split; [done|].
  intros R status context key svc Hrest Hwin Hnot.
  assert (Hr : resolve R context (_currentChord svc) key = Invoke (Some rest) args true).
  { rewrite resolve_winner, Hwin. cbn.
    destruct (_currentChord svc) as [c|]; [done|]. cbn.
    destruct (from_option isChord false kb); [|done].
    exfalso. by apply Hnot. }
  split; [done|].
  destruct (isModifierKey key) eqn:Hk; [by rewrite dispatch_modifier|].
  destruct (dispatch_complete R status context key svc Hk) as (-> & _).
  { by rewrite Hr. }
  rewrite Hr. cbn. destruct rest; [done|]. cbn.
  by rewrite andb_false_r.
Qed.


End DispatcherClaims.

(** ** The dispatcher on concrete rules *)



Lemma caret_command_bubbles_witness :
  let item :=
    @newNormalizedKeybindingItem Sample.ext 0 (Some (SimpleKeybinding 1))
      (Some "^save") None None false in
  let R := newKeybindingResolver [] [item] false in
  let context := Sample.context [] in
  let svc := newAbstractKeybindingService in
  command item = Some "save"
  ∧ bubble item = true
  ∧ resolve R context (_currentChord svc) 1%N = Invoke (Some "save") None true
  ∧ fst (_dispatch R true context 1%N svc) = false.
Proof.
  intros item R context svc.
  destruct (@caret_command_bubbles Sample.ext 0 (Some (SimpleKeybinding 1))
              "save" None None false) as (Hc & Hb & H).
  split; [exact Hc|]. split; [exact Hb|].
  apply (H R true context 1%N svc).
  - discriminate.
  - reflexivity.
  - intros [_ Hchord]. discriminate.
Defined.

(** C7, as stated, fails. The raw command of the chord rule is the caret
    alone: the rule has [bubble = true] and an empty command. With a status
    bar service attached, when the rule is selected by the second key-press
    of the chord, the result carries [bubble = true], and the dispatcher asks
    for default handling to be suppressed. *)
Lemma bare_caret_suppresses_default :
  let item := Sample.rule 0 (ChordKeybinding 1 2) "^" None false in
  let R := newKeybindingResolver [] [item] false in
  let context := Sample.context [] in
  let svc1 := snd (_dispatch R true context 1%N newAbstractKeybindingService) in
  bubble item = true
  ∧ command item = Some ""
  ∧ _currentChord svc1 = Some 1%N
  ∧ winner R context (_currentChord svc1) 2%N = Some item
  ∧ resolve R context (_currentChord svc1) 2%N = Invoke (Some "") None true
  ∧ fst (_dispatch R true context 2%N svc1) = true.
Proof. cbn zeta. by vm_compute. Qed.

(** C8, as stated, fails. From idle, the first key-press of a chord
    resolves to [AwaitChord]: no command is invoked, no pending chord is
    abandoned, and default handling is suppressed. Without a status bar
    service, the key-press [3] after [AwaitChord 1] resolves to [NoMatch],
    the pending chord is abandoned, and default handling is not suppressed. *)
Lemma suppression_not_as_stated :
  let Z := Sample.rule 0 (ChordKeybinding 1 2) "Z" None true in
  let R := newKeybindingResolver [Z] [] false in
  let context := Sample.context [] in
  let svc := newAbstractKeybindingService in
  (_currentChord svc = None
   ∧ @isModifierKey Sample.ext 1%N = false
   ∧ resolve R context (_currentChord svc) 1%N = AwaitChord 1%N
   ∧ fst (_dispatch R true context 1%N svc) = true)
  ∧ (let svc1 := snd (_dispatch R false context 1%N svc) in
     _currentChord svc1 = Some 1%N
     ∧ @isModifierKey Sample.ext 3%N = false
     ∧ resolve R context (_currentChord svc1) 3%N = NoMatch
     ∧ _currentChord (snd (_dispatch R false context 3%N svc1)) = None
     ∧ fst (_dispatch R false context 3%N svc1) = false).
Proof. cbn zeta. by vm_compute. Qed.

(** ** The padded key field *)





(** The key field of a default rule on the key-press [k1], as written in the
    canonical text: 24 characters. *)
Example keyField_k1 :
  String.length (keyField (Sample.rule 0 (SimpleKeybinding 1) "X" None true)) = 24.
Proof. reflexivity. Qed.

(** The default rule for [X] is deleted by the directive [-X], the default
    rule for [N] has no keybinding: both commands are reported as bound by
    default, and [X] has no keybinding left. *)
Example removed_default_still_bound :
  let X := Sample.rule 0 (SimpleKeybinding 1) "X" None true in
  let N := @newNormalizedKeybindingItem Sample.ext 1 None (Some "N") None None true in
  let minusX := Sample.rule 2 (SimpleKeybinding 1) "-X" None false in
  let R := newKeybindingResolver [X; N] [minusX] true in
  combine [X; N] [minusX] = [N]
  ∧ "X" ∈ getDefaultBoundCommands R
  ∧ "N" ∈ getDefaultBoundCommands R
  ∧ lookupKeybindings R "X" = [].
Proof.
  cbn zeta. split; [reflexivity|].
  split; [by eapply (bool_decide_unpack _); vm_compute|].
  split; [by eapply (bool_decide_unpack _); vm_compute|].
  reflexivity.
Qed.

(** * Further properties of the resolver *)

Section Resolution.
Context `{Ext : External}.

Lemma findLastMatching_reverse context (l : list NormalizedKeybindingItem) :
  findLastMatching context (reverse l) = last (List.filter (matchesContext context) l).
Proof.
  induction l as [|x l IH] using rev_ind; [done|].
  rewrite reverse_app, List.filter_app. cbn. unfold matchesContext at 2.
  destruct (contextMatchesRules context (when x)); cbn.
  - by rewrite last_snoc.
  - by rewrite app_nil_r.
Qed.

Lemma candidates_new D O w currentChord keypress :
  candidates (newKeybindingResolver D O w) currentChord keypress =
    List.filter (fits currentChord keypress) (combine D O).
Proof.
  destruct currentChord as [chord|]; cbn [candidates fits].
  - apply chordBucket_new.
  - apply flatBucket_new.
Qed.

Lemma winner_new D O w context currentChord keypress :
  winner (newKeybindingResolver D O w) context currentChord keypress =
    last (List.filter
            (λ x, fits currentChord keypress x && matchesContext context x)
            (combine D O)).
Proof.
  rewrite winner_candidates, findLastMatching_reverse, candidates_new.
  by rewrite filter_filter_andb.
Qed.

(** X1. Resolution picks the last rule of the combined list that is filed
    under the key sequence and whose condition holds; nothing else about the
    list matters. *)
Theorem resolve_last_fitting_rule :
  ∀ (D O : list NormalizedKeybindingItem) (w : bool) (context : ContextValue)
    (currentChord : option N) (keypress : N),
    resolve (newKeybindingResolver D O w) context currentChord keypress =
      match last (List.filter
                    (λ x, fits currentChord keypress x && matchesContext context x)
                    (combine D O)) with
      | Some x => outcomeOf currentChord keypress x
      | None => NoMatch
      end.
Proof.
  intros D O w context currentChord keypress.
  by rewrite resolve_winner, winner_new.
Qed.

(** X2. Resolution finds no match exactly when no rule of the combined list
    filed under the key sequence has a condition that holds. *)
Theorem resolve_no_match_iff :
  ∀ (D O : list NormalizedKeybindingItem) (w : bool) (context : ContextValue)
    (currentChord : option N) (keypress : N),
    resolve (newKeybindingResolver D O w) context currentChord keypress = NoMatch
    ↔ ∀ x, x ∈ combine D O → fits currentChord keypress x = true →
           matchesContext context x = false.
Proof.
  intros D O w context currentChord keypress.
  rewrite resolve_winner, winner_new.
  set (P := λ x, fits currentChord keypress x && matchesContext context x).
  split.
  - intros H x Hx Hfit.
    destruct (last (List.filter P (combine D O))) as [y|] eqn:Hl.
    { unfold NoMatch, AwaitChord, Invoke in H.
      destruct (bool_decide (currentChord = None)
                && from_option isChord false (keybinding y)); discriminate. }
    apply last_None in Hl.
    destruct (matchesContext context x) eqn:Hm; [|done].
    assert (Hin : In x (List.filter P (combine D O))).
    { apply List.filter_In. split; [by apply list_elem_of_In|].
      unfold P. by rewrite Hfit, Hm. }
    rewrite Hl in Hin. done.
  - intros H.
    destruct (last (List.filter P (combine D O))) as [y|] eqn:Hl; [|done].
    apply last_Some_elem_of, list_elem_of_In, List.filter_In in Hl as [Hy HP].
    unfold P in HP. apply andb_true_iff in HP as [Hfit Hm].
    rewrite (H y) in Hm; [done|by apply list_elem_of_In|done].
Qed.

(** X3. A user rule beats every default: when some override that is not a
    removal directive is filed under the key sequence and its condition
    holds, the rule that resolution selects is such an override. *)
Theorem override_beats_defaults :
  ∀ (D O : list NormalizedKeybindingItem) (w : bool) (context : ContextValue)
    (currentChord : option N) (keypress : N) (o : NormalizedKeybindingItem),
    o ∈ O →
    keptAsRule o = true →
    fits currentChord keypress o = true →
    matchesContext context o = true →
    ∃ x, x ∈ O ∧ keptAsRule x = true
         ∧ fits currentChord keypress x = true
         ∧ matchesContext context x = true
         ∧ resolve (newKeybindingResolver D O w) context currentChord keypress
             = outcomeOf currentChord keypress x.
Proof.
  intros D O w context currentChord keypress o Ho Hk Hfit Hm.
  rewrite resolve_winner, winner_new, combine_spec, List.filter_app, last_app.
  set (P := λ x, fits currentChord keypress x && matchesContext context x).
  assert (Hin : In o (List.filter P (List.filter keptAsRule O))).
  { apply List.filter_In. split.
    - apply List.filter_In. split; [by apply list_elem_of_In|done].
    - unfold P. by rewrite Hfit, Hm. }
  destruct (last (List.filter P (List.filter keptAsRule O))) as [x|] eqn:Hl.
  - exists x.
    apply last_Some_elem_of, list_elem_of_In, List.filter_In in Hl as [Hx HP].
    apply List.filter_In in Hx as [Hx Hkx]. apply list_elem_of_In in Hx.
    unfold P in HP. apply andb_true_iff in HP as [Hfx Hmx].
    by unfold outcomeOf.
  - apply last_None in Hl. rewrite Hl in Hin. done.
Qed.

End Resolution.

Lemma override_beats_defaults_witness :
  let d := Sample.rule 0 (SimpleKeybinding 1) "X" None true in
  let o := Sample.rule 1 (SimpleKeybinding 1) "Y" None false in
  ∃ x, x ∈ [o] ∧ keptAsRule x = true
       ∧ fits None 1%N x = true
       ∧ matchesContext (Sample.context []) x = true
       ∧ resolve (newKeybindingResolver [d] [o] true) (Sample.context []) None 1%N
           = outcomeOf None 1%N x.
Proof.
  intros d o.
  apply (override_beats_defaults [d] [o] true (Sample.context []) None 1%N o).
  - constructor.
  - reflexivity.
  - reflexivity.
  - reflexivity.
Defined.

Section LookupIndex.
Context `{Ext : External}.

(** *** What the by-command index can hold *)

Lemma spliceFirstSame_sublist item (arr : list NormalizedKeybindingItem) :
  spliceFirstSame item arr `sublist_of` arr.
Proof.
  induction arr as [|x arr IH]; [done|]. cbn.
  destruct (sameObject x item).
  - by apply sublist_cons.
  - by apply sublist_skip.
Qed.

Lemma entries_foldl_checkConflict_sublist item l r cmd :
  entries (foldl (checkConflict item) r l) cmd `sublist_of` entries r cmd.
Proof.
  revert r. induction l as [|c l IH]; intros r; [done|]. cbn.
  etrans; [apply IH|]. rewrite entries_checkConflict.
  destruct (shadows item c && bool_decide (command c = Some cmd)); [|done].
  apply spliceFirstSame_sublist.
Qed.

Lemma entries_set_chords f r cmd : entries (set_chords f r) cmd = entries r cmd.
Proof. done. Qed.

Lemma flatBucket_set_chords f r k : flatBucket (set_chords f r) k = flatBucket r k.
Proof. done. Qed.

Lemma entries_indexItem_sublist r y cmd (known : list NormalizedKeybindingItem) :
  entries r cmd `sublist_of` known →
  entries (indexItem r y) cmd
    `sublist_of` known ++ (if listable cmd y then [y] else []).
Proof.
  intros H. unfold indexItem, listable.
  destruct (keybinding y) as [[v|f c]|] eqn:Hkb.
  - rewrite entries_addKeyPress.
    rewrite (bool_decide_eq_true_2 (is_Some (Some (SimpleKeybinding v)))) by eauto.
    rewrite andb_true_r, (andb_comm (bool_decide _)).
    apply sublist_app; [|done].
    etrans; [apply entries_foldl_checkConflict_sublist|done].
  - rewrite entries_addKeyPress.
    rewrite (bool_decide_eq_true_2 (is_Some (Some (ChordKeybinding f c)))) by eauto.
    rewrite andb_true_r, (andb_comm (bool_decide _)).
    apply sublist_app; [|done].
    etrans; [apply entries_foldl_checkConflict_sublist|done].
  - rewrite (bool_decide_eq_false_2 (is_Some None)) by (by intros [? ?]).
    by rewrite andb_false_r, app_nil_r.
Qed.

Lemma entries_foldl_indexItem_sublist all r cmd (known : list NormalizedKeybindingItem) :
  entries r cmd `sublist_of` known →
  entries (foldl indexItem r all) cmd
    `sublist_of` known ++ List.filter (listable cmd) all.
Proof.
  revert r known. induction all as [|y all IH]; intros r known H; cbn.
  - by rewrite app_nil_r.
  - apply (entries_indexItem_sublist r y) in H. apply IH in H.
    rewrite <- app_assoc in H. by destruct (listable cmd y).
Qed.

Lemma filter_listable_empty (l : list NormalizedKeybindingItem) :
  List.filter (listable "") l = [].
Proof.
  induction l as [|x l IH]; [done|]. cbn. rewrite IH.
  unfold listable. by destruct (command x) as [[|a s]|].
Qed.

(** X4. The keybindings listed for a command are, from the most recent to
    the oldest, rules of the combined list that carry this command, a
    non-empty one, and a keybinding: the index lists nothing else, and never
    out of order. In particular nothing is listed for the empty command. *)
Theorem lookupKeybindings_lists_rules_of_command :
  ∀ (D O : list NormalizedKeybindingItem) (w : bool) (cmd : string),
    reverse (lookupKeybindings (newKeybindingResolver D O w) cmd)
      `sublist_of` List.filter (listable cmd) (combine D O)
    ∧ lookupKeybindings (newKeybindingResolver D O w) "" = [].
Proof.
  intros D O w cmd.
  assert (H : ∀ c, reverse (lookupKeybindings (newKeybindingResolver D O w) c)
                     `sublist_of` List.filter (listable c) (combine D O)).
  { intros c. rewrite lookupKeybindings_entries, reverse_involutive.
    unfold newKeybindingResolver.
    apply (entries_foldl_indexItem_sublist _ _ c []).
    unfold entries. cbn. by rewrite lookup_empty. }
  split; [apply H|].
  specialize (H ""). rewrite filter_listable_empty in H.
  apply sublist_nil_r in H.
  by rewrite <- (reverse_involutive (lookupKeybindings _ _)), H.
Qed.

(** X5. The primary keybinding of a command is the first of the
    keybindings listed for it, whatever the state of the index. *)
Theorem lookupPrimaryKeybinding_is_first :
  ∀ (r : KeybindingResolver) (commandId : string),
    lookupPrimaryKeybinding r commandId = head (lookupKeybindings r commandId).
Proof.
  intros r commandId. unfold lookupPrimaryKeybinding, lookupKeybindings.
  destruct (_lookupMap r !! commandId) as [items|]; [|done].
  case_bool_decide as Hlen; [done|]. by rewrite head_reverse.
Qed.

End LookupIndex.

Section UnshadowedRules.
Context `{Ext : External}.

(** *** The index of distinct objects *)

Lemma same_oid_same_item (p : list NormalizedKeybindingItem) x y :
  NoDup (oid <$> p) → x ∈ p → y ∈ p → oid x = oid y → x = y.
Proof.
  induction p as [|z p IH]; intros Hnd Hx Hy Heq.
  { by apply elem_of_nil in Hx. }
  rewrite fmap_cons in Hnd. apply NoDup_cons in Hnd as [Hz Hnd].
  apply elem_of_cons in Hx as [->|Hx]; apply elem_of_cons in Hy as [->|Hy].
  - done.
  - exfalso. apply Hz. rewrite Heq. by apply list_elem_of_fmap_2.
  - exfalso. apply Hz. rewrite <- Heq. by apply list_elem_of_fmap_2.
  - by apply IH.
Qed.

Lemma filter_sublist {A} (f : A → bool) (l : list A) :
  List.filter f l `sublist_of` l.
Proof.
  induction l as [|x l IH]; [done|]. cbn.
  destruct (f x); [by apply sublist_skip|by apply sublist_cons].
Qed.

Lemma filter_all {A} (f : A → bool) (l : list A) :
  (∀ x, x ∈ l → f x = true) → List.filter f l = l.
Proof.
  induction l as [|x l IH]; intros H; [done|]. cbn.
  rewrite (H x) by left. f_equal. apply IH. intros y Hy. apply H. by right.
Qed.

Lemma filter_comm {A} (f g : A → bool) (l : list A) :
  List.filter f (List.filter g l) = List.filter g (List.filter f l).
Proof.
  rewrite !filter_filter_andb. apply List.filter_ext. intros x. apply andb_comm.
Qed.

Lemma spliceFirstSame_filter c (E : list NormalizedKeybindingItem) :
  NoDup (oid <$> E) →
  spliceFirstSame c E = List.filter (λ x, negb (sameObject x c)) E.
Proof.
  induction E as [|x E IH]; intros Hnd; [done|].
  rewrite fmap_cons in Hnd. apply NoDup_cons in Hnd as [Hx Hnd]. cbn.
  destruct (sameObject x c) eqn:Hs; cbn.
  - symmetry. apply filter_all. intros y Hy. apply negb_true_iff.
    unfold sameObject in *. apply bool_decide_eq_true in Hs.
    apply bool_decide_eq_false. intros Hyc. apply Hx. rewrite Hs, <- Hyc.
    by apply list_elem_of_fmap_2.
  - by rewrite IH.
Qed.

Lemma NoDup_oid_filter (f : NormalizedKeybindingItem → bool) E :
  NoDup (oid <$> E) → NoDup (oid <$> List.filter f E).
Proof.
  intros H. eapply sublist_NoDup; [done|]. apply fmap_sublist, filter_sublist.
Qed.

(** The conflicts that the insertion of [item] removes from the entries of
    [cmd], as one filter. *)
Lemma entries_foldl_checkConflict_filter item l r cmd :
  NoDup (oid <$> entries r cmd) →
  entries (foldl (checkConflict item) r l) cmd =
    List.filter
      (λ x, negb (existsb (λ c, shadows item c
                                && bool_decide (command c = Some cmd)
                                && sameObject x c) l))
      (entries r cmd).
Proof.
  revert r. induction l as [|c l IH]; intros r Hnd; cbn [foldl existsb].
  - symmetry. by apply filter_all.
  - rewrite IH.
    + rewrite entries_checkConflict.
      destruct (shadows item c && bool_decide (command c = Some cmd)) eqn:Hg;
        cbn [andb orb].
      * rewrite spliceFirstSame_filter by done. rewrite filter_filter_andb.
        apply List.filter_ext. intros x. by rewrite negb_orb.
      * done.
    + rewrite entries_checkConflict.
      destruct (shadows item c && bool_decide (command c = Some cmd)); [|done].
      rewrite spliceFirstSame_filter by done. by apply NoDup_oid_filter.
Qed.

Lemma checkConflict_set_chords g item r c :
  checkConflict item (set_chords g r) c = set_chords g (checkConflict item r c).
Proof.
  rewrite !checkConflict_shadows. destruct (shadows item c); [|done].
  destruct r as [dk warn bound m ch lm con].
  unfold _removeFromLookupMap, console_warn, set_chords, set_lookupMap. cbn.
  destruct (warn && isDefault item); cbn;
    destruct (command c) as [cmd|]; cbn; try done;
    by destruct (lm !! cmd).
Qed.

Lemma foldl_checkConflict_set_chords g item l r :
  foldl (checkConflict item) (set_chords g r) l
    = set_chords g (foldl (checkConflict item) r l).
Proof.
  revert r. induction l as [|c l IH]; intros r; [done|].
  cbn. by rewrite checkConflict_set_chords, IH.
Qed.

Lemma entries_addKeyPress_set_chords g keypress item r cmd :
  entries (_addKeyPress keypress item (set_chords g r)) cmd
    = entries (_addKeyPress keypress item r) cmd.
Proof.
  rewrite !entries_addKeyPress, flatBucket_set_chords.
  by rewrite foldl_checkConflict_set_chords, entries_set_chords.
Qed.

Lemma unshadowed_sublist (p : list NormalizedKeybindingItem) :
  unshadowed p `sublist_of` p.
Proof.
  induction p as [|x p IH]; [done|]. cbn.
  destruct (bool_decide (is_Some (keybinding x)) && JS.truthy (command x)
            && negb (existsb (shadowedBy x) p));
    [by apply sublist_skip|by apply sublist_cons].
Qed.

Lemma unshadowed_has_key (p : list NormalizedKeybindingItem) x :
  x ∈ unshadowed p → is_Some (keybinding x) ∧ JS.truthy (command x) = true.
Proof.
  induction p as [|z p IH]; cbn; [by intros ?%elem_of_nil|].
  destruct (bool_decide (is_Some (keybinding z)) && JS.truthy (command z)
            && negb (existsb (shadowedBy z) p)) eqn:Hc; [|done].
  intros [->|Hx]%elem_of_cons; [|by apply IH].
  apply andb_true_iff in Hc as [Hc _]. apply andb_true_iff in Hc as [Hk Ht].
  by apply bool_decide_eq_true in Hk.
Qed.

Lemma unshadowed_snoc (p : list NormalizedKeybindingItem) y :
  unshadowed (p ++ [y]) =
    List.filter (λ x, negb (shadowedBy x y)) (unshadowed p)
    ++ (if bool_decide (is_Some (keybinding y)) && JS.truthy (command y)
        then [y] else []).
Proof.
  induction p as [|x p IH]; cbn.
  - by rewrite andb_true_r.
  - rewrite IH, existsb_app. cbn [existsb]. rewrite orb_false_r, negb_orb.
    destruct (bool_decide (is_Some (keybinding x)) && JS.truthy (command x));
      cbn [andb]; [|done].
    destruct (existsb (shadowedBy x) p); cbn [negb andb]; [done|].
    cbn [List.filter]. by destruct (shadowedBy x y).
Qed.

Lemma entries_foldl_indexItem_unshadowed (p : list NormalizedKeybindingItem) r0 cmd :
  _map r0 = ∅ → _lookupMap r0 = ∅ →
  NoDup (oid <$> p) →
  entries (foldl indexItem r0 p) cmd =
    List.filter (λ x, bool_decide (command x = Some cmd)) (unshadowed p).
Proof.
  intros Hm Hl. induction p as [|y p IH] using rev_ind; intros Hnd.
  { cbn. unfold entries. by rewrite Hl, lookup_empty. }
  rewrite fmap_app in Hnd. apply NoDup_app in Hnd as (Hnd & Hfresh & _).
  specialize (IH Hnd). rewrite foldl_snoc, unshadowed_snoc, List.filter_app.
  set (r := foldl indexItem r0 p) in *.
  assert (Hbucket : ∀ k, flatBucket r k
            = List.filter (λ x, bool_decide (flatKey x = Some k)) p).
  { intros k. subst r. rewrite flatBucket_foldl_indexItem.
    unfold flatBucket. by rewrite Hm, lookup_empty. }
  assert (HndE : NoDup (oid <$> entries r cmd)).
  { rewrite IH. apply NoDup_oid_filter.
    eapply sublist_NoDup; [exact Hnd|]. apply fmap_sublist, unshadowed_sublist. }
  assert (Hstep : ∀ k, flatKey y = Some k →
            entries (_addKeyPress k y r) cmd =
              List.filter (λ x, bool_decide (command x = Some cmd))
                (List.filter (λ x, negb (shadowedBy x y)) (unshadowed p))
              ++ (if JS.truthy (command y) && bool_decide (command y = Some cmd)
                  then [y] else [])).
  { intros k Hk. rewrite entries_addKeyPress. f_equal.
    rewrite entries_foldl_checkConflict_filter by done.
    rewrite IH.
    rewrite (filter_comm (λ x, bool_decide (command x = Some cmd))).
    apply List.filter_ext_in. intros x [Hx Hcx]%List.filter_In.
    apply list_elem_of_In in Hx. apply bool_decide_eq_true in Hcx. f_equal.
    assert (Hxp : x ∈ p) by (eapply elem_of_sublist; [exact Hx|apply unshadowed_sublist]).
    unfold shadowedBy. rewrite Hk.
    destruct (bool_decide (Some k = flatKey x) && shadows y x) eqn:Hsh.
    - apply andb_true_iff in Hsh as [Hkx Hsh]. apply bool_decide_eq_true in Hkx.
      apply existsb_exists. exists x. split.
      + apply list_elem_of_In, elem_of_reverse_2. rewrite Hbucket.
        apply list_elem_of_In, List.filter_In. split; [by apply list_elem_of_In|].
        by apply bool_decide_eq_true.
      + rewrite Hsh. rewrite (bool_decide_eq_true_2 _ Hcx). cbn.
        unfold sameObject. by apply bool_decide_eq_true.
    - apply not_true_iff_false. intros (c & Hc & Hg)%existsb_exists.
      apply not_true_iff_false in Hsh. apply Hsh.
      apply andb_true_iff in Hg as [Hg Hsame].
      apply andb_true_iff in Hg as [Hshc _].
      apply list_elem_of_In in Hc. apply (proj1 (elem_of_reverse _ _)) in Hc.
      rewrite Hbucket in Hc.
      apply list_elem_of_In, List.filter_In in Hc as [Hcp Hck].
      apply list_elem_of_In in Hcp. apply bool_decide_eq_true in Hck.
      unfold sameObject in Hsame. apply bool_decide_eq_true in Hsame.
      assert (x = c) as -> by (by apply (same_oid_same_item p)).
      rewrite Hshc, andb_true_r. by apply bool_decide_eq_true. }
  cbn [foldl]. unfold indexItem.
  destruct (keybinding y) as [[v|f c]|] eqn:Hkb.
  - rewrite (Hstep v) by (unfold flatKey; by rewrite Hkb). f_equal.
    rewrite (bool_decide_eq_true_2 (is_Some (Some (SimpleKeybinding v)))) by eauto.
    cbn [andb]. destruct (JS.truthy (command y)); cbn; [|done].
    by destruct (bool_decide (command y = Some cmd)).
  - rewrite entries_addKeyPress_set_chords.
    rewrite (Hstep f) by (unfold flatKey; by rewrite Hkb). f_equal.
    rewrite (bool_decide_eq_true_2 (is_Some (Some (ChordKeybinding f c)))) by eauto.
    cbn [andb]. destruct (JS.truthy (command y)); cbn; [|done].
    by destruct (bool_decide (command y = Some cmd)).
  - rewrite (bool_decide_eq_false_2 (is_Some None)) by (by intros [? ?]).
    cbn [andb List.filter]. rewrite app_nil_r, IH. f_equal. symmetry.
    apply filter_all. intros x Hx. apply negb_true_iff.
    assert (Hfy : flatKey y = None) by (unfold flatKey; by rewrite Hkb).
    apply unshadowed_has_key in Hx as [[kx Hkx] _].
    assert (Hfx : flatKey x = Some (firstPartValue kx))
      by (unfold flatKey; by rewrite Hkx).
    unfold shadowedBy. rewrite Hfy, Hfx. by rewrite bool_decide_eq_false_2.
Qed.

End UnshadowedRules.

Section LookupClaims.
Context `{Ext : External}.

(** X6. When the rules of the combined list are distinct objects, the
    keybindings listed for a command are exactly its rules that have a
    keybinding and that no later rule filed under the same key-press shadows,
    the most recent first. *)
Theorem lookupKeybindings_unshadowed :
  ∀ (D O : list NormalizedKeybindingItem) (w : bool) (cmd : string),
    NoDup (oid <$> combine D O) →
    lookupKeybindings (newKeybindingResolver D O w) cmd =
      reverse (List.filter (λ x, bool_decide (command x = Some cmd))
                 (unshadowed (combine D O))).
Proof.
  intros D O w cmd Hnd. rewrite lookupKeybindings_entries. f_equal.
  unfold newKeybindingResolver. by apply entries_foldl_indexItem_unshadowed.
Qed.

(** X7. A default rule that a removal directive deletes, and that the
    overrides do not add again, is gone from the resolver: it is in no
    bucket, resolution never selects it, and no command lists it. *)
Theorem removed_default_is_gone :
  ∀ (D O : list NormalizedKeybindingItem) (w : bool) (d : NormalizedKeybindingItem),
    survives O d = false →
    d ∉ O →
    let R := newKeybindingResolver D O w in
    (∀ k, d ∉ flatBucket R k)
    ∧ (∀ k1 k2, d ∉ chordBucket R k1 k2)
    ∧ (∀ context currentChord keypress,
         winner R context currentChord keypress ≠ Some d)
    ∧ (∀ cmd, d ∉ lookupKeybindings R cmd).
Proof.
  intros D O w d Hs HO R.
  assert (Hall : d ∉ combine D O).
  { rewrite combine_spec, elem_of_app, !list_elem_of_In, !List.filter_In.
    intros [[_ H]|[H _]]; [congruence|]. by apply HO, list_elem_of_In. }
  assert (Hcand : ∀ chord key, d ∉ candidates R chord key).
  { intros chord key. subst R. rewrite candidates_new.
    rewrite list_elem_of_In, List.filter_In, <- list_elem_of_In. tauto. }
  split; [intros k; apply (Hcand None k)|].
  split; [intros k1 k2; apply (Hcand (Some k1) k2)|].
  split.
  - intros context chord key Hw. rewrite winner_candidates in Hw.
    rewrite findLastMatching_reverse in Hw.
    apply last_Some_elem_of, list_elem_of_In, List.filter_In in Hw as [Hw _].
    by apply (Hcand chord key), list_elem_of_In.
  - intros cmd Hin. apply Hall.
    apply elem_of_reverse_2 in Hin. rewrite lookupKeybindings_entries in Hin.
    rewrite reverse_involutive in Hin.
    assert (Hsub : entries R cmd `sublist_of` List.filter (listable cmd) (combine D O)).
    { subst R. unfold newKeybindingResolver.
      apply (entries_foldl_indexItem_sublist _ _ cmd []).
      unfold entries. cbn. by rewrite lookup_empty. }
    eapply elem_of_sublist in Hsub; [|exact Hin].
    apply list_elem_of_In, List.filter_In in Hsub as [Hsub _].
    by apply list_elem_of_In.
Qed.

(** X8. The inclusion test is a preorder on conditions with the absent
    condition on top: every condition is included in itself, inclusion
    composes, everything is included in the absent condition, and the absent
    condition is included in no present one. *)
Theorem whenIsEntirelyIncluded_preorder :
  ∀ (n : bool) (a b c : option ContextKeyExpr),
    whenIsEntirelyIncluded n a a = true
    ∧ (whenIsEntirelyIncluded n a b = true →
       whenIsEntirelyIncluded n b c = true →
       whenIsEntirelyIncluded n a c = true)
    ∧ whenIsEntirelyIncluded n a None = true
    ∧ (is_Some b → whenIsEntirelyIncluded n None b = false).
Proof.
  assert (Hnorm : ∀ n a b, whenIsEntirelyIncluded n a b =
            whenIsEntirelyIncluded true
              (if n then a else normalize <$> a) (if n then b else normalize <$> b)).
  { intros [] a b; done. }
  assert (Hrefl : ∀ a, whenIsEntirelyIncluded true a a = true).
  { intros a. apply whenIsEntirelyIncluded_spec.
    destruct a as [a|]; [right|by left]. exists a, a. done. }
  assert (Htrans : ∀ a b c, whenIsEntirelyIncluded true a b = true →
            whenIsEntirelyIncluded true b c = true →
            whenIsEntirelyIncluded true a c = true).
  { intros a b c Hab Hbc. apply whenIsEntirelyIncluded_spec.
    apply whenIsEntirelyIncluded_spec in Hab, Hbc.
    destruct Hbc as [->|(b' & c' & -> & -> & Hbc)]; [by left|].
    destruct Hab as [?|(a' & b'' & -> & [= <-] & Hab)]; [done|].
    right. exists a', c'. split; [done|]. split; [done|]. auto. }
  intros n a b c. rewrite !Hnorm. split; [apply Hrefl|].
  split; [apply Htrans|]. split.
  - by destruct n.
  - intros [b' ->]. by destruct n.
Qed.

End LookupClaims.

Lemma lookupKeybindings_unshadowed_witness :
  let A := Sample.rule 0 (SimpleKeybinding 1) "X" (Some ["a"; "b"]) true in
  let B := Sample.rule 1 (SimpleKeybinding 1) "Y" (Some ["a"]) false in
  lookupKeybindings (newKeybindingResolver [A] [B] true) "X" =
    reverse (List.filter (λ x, bool_decide (command x = Some "X"))
               (unshadowed (combine [A] [B]))).
Proof.
  intros A B. apply (lookupKeybindings_unshadowed [A] [B] true "X").
  apply (bool_decide_unpack _). vm_compute. exact I.
Defined.

Lemma removed_default_is_gone_witness :
  let d := Sample.rule 0 (SimpleKeybinding 1) "X" None true in
  let minusX := Sample.rule 1 (SimpleKeybinding 1) "-X" None false in
  let R := newKeybindingResolver [d] [minusX] true in
  (∀ k, d ∉ flatBucket R k)
  ∧ (∀ k1 k2, d ∉ chordBucket R k1 k2)
  ∧ (∀ context currentChord keypress,
       winner R context currentChord keypress ≠ Some d)
  ∧ (∀ cmd, d ∉ lookupKeybindings R cmd).
Proof.
  intros d minusX.
  apply (removed_default_is_gone [d] [minusX] true d).
  - reflexivity.
  - intros H. apply list_elem_of_singleton in H. discriminate.
Defined.

Lemma whenIsEntirelyIncluded_preorder_witness :
  let ab : option (@ContextKeyExpr Sample.ext) := Some ["a"; "b"] in
  let a : option (@ContextKeyExpr Sample.ext) := Some ["a"] in
  whenIsEntirelyIncluded true ab None = true
  ∧ whenIsEntirelyIncluded true None a = false.
Proof.
  intros ab a.
  destruct (@whenIsEntirelyIncluded_preorder Sample.ext true ab a None)
    as (_ & Htrans & _ & Hnone).
  split.
  - apply Htrans; reflexivity.
  - apply Hnone. by exists ["a"].
Defined.

Section DispatcherInvariants.
Context `{Ext : External}.

Lemma findLastMatching_Some context (l : list NormalizedKeybindingItem) x :
  findLastMatching context l = Some x → x ∈ l ∧ matchesContext context x = true.
Proof.
  induction l as [|y l IH]; [done|]. cbn. unfold matchesContext.
  destruct (contextMatchesRules context (when y)) eqn:Hm; cbn.
  - intros [= ->]. split; [left|done].
  - intros [Hx Hmx]%IH. split; [by right|done].
Qed.

Lemma resolve_pending_no_chord r context chord keypress :
  resolve r context (Some chord) keypress ≫= enterChord = None.
Proof.
  rewrite resolve_winner.
  by destruct (winner r context (Some chord) keypress).
Qed.

(** X9. A chord lasts two key-presses. A modifier-only key-press changes
    nothing. Any other key-press leaves either no chord pending, or, when
    none was pending, itself as the pending first part; when a chord was
    pending it leaves none. *)
Theorem chord_lasts_two_presses :
  ∀ (R : KeybindingResolver) (status : bool) (context : ContextValue)
    (key : N) (svc : AbstractKeybindingService),
    let svc' := snd (_dispatch R status context key svc) in
    (isModifierKey key = true →
       svc' = svc ∧ fst (_dispatch R status context key svc) = false)
    ∧ (isModifierKey key = false →
         (is_Some (_currentChord svc) → _currentChord svc' = None)
         ∧ (_currentChord svc' = None
            ∨ (_currentChord svc = None ∧ _currentChord svc' = Some key))).
Proof.
  intros R status context key svc svc'. split.
  - intros Hk. subst svc'. by rewrite dispatch_modifier.
  - intros Hk.
    destruct (resolve R context (_currentChord svc) key ≫= enterChord)
      as [chord|] eqn:Hr.
    + destruct (dispatch_enterChord R status context key svc chord Hk Hr)
        as (_ & Hc & _). fold svc' in Hc.
      destruct (resolve_cases R context (_currentChord svc) key)
        as [Hn|[[Hidle Ha]|(cmd & args & b & Hi)]].
      * rewrite Hn in Hr. done.
      * rewrite Ha in Hr. cbn in Hr. simplify_eq. rewrite Hidle. split.
        -- by intros [? ?].
        -- by right.
      * rewrite Hi in Hr. done.
    + destruct (dispatch_complete R status context key svc Hk Hr) as (_ & Hc & _).
      fold svc' in Hc. split; [done|by left].
Qed.

(** X10. One key-press executes at most one command, and only the command
    of the rule that resolution selects: a rule among the candidates for the
    key sequence whose condition holds in the context and whose command is
    not empty. A modifier-only key-press executes nothing. *)
Theorem dispatch_executes_selected_rule :
  ∀ (R : KeybindingResolver) (status : bool) (context : ContextValue)
    (key : N) (svc : AbstractKeybindingService),
    ∃ calls,
      executed (snd (_dispatch R status context key svc)) = executed svc ++ calls
      ∧ length calls ≤ 1
      ∧ ∀ id args, (id, args) ∈ calls →
          isModifierKey key = false
          ∧ id ≠ ""
          ∧ ∃ x, winner R context (_currentChord svc) key = Some x
                 ∧ x ∈ candidates R (_currentChord svc) key
                 ∧ matchesContext context x = true
                 ∧ command x = Some id
                 ∧ args = argsOrEmpty (commandArgs x).
Proof.
  intros R status context key svc.
  destruct (isModifierKey key) eqn:Hk.
  { exists []. rewrite dispatch_modifier by done. cbn. rewrite app_nil_r.
    split; [done|]. split; [lia|]. by intros ?? ?%elem_of_nil. }
  destruct (resolve R context (_currentChord svc) key ≫= enterChord)
    as [chord|] eqn:Hr.
  { destruct (dispatch_enterChord R status context key svc chord Hk Hr)
      as (_ & _ & He).
    exists []. rewrite He, app_nil_r.
    split; [done|]. split; [cbn; lia|]. by intros ?? ?%elem_of_nil. }
  destruct (dispatch_complete R status context key svc Hk Hr) as (_ & _ & He).
  exists (executionOf (resolve R context (_currentChord svc) key)).
  split; [done|]. clear He.
  rewrite resolve_winner in *.
  destruct (winner R context (_currentChord svc) key) as [x|] eqn:Hw.
  2:{ split; [cbn; lia|]. by intros ?? ?%elem_of_nil. }
  assert (Hx : x ∈ candidates R (_currentChord svc) key
               ∧ matchesContext context x = true).
  { rewrite winner_candidates in Hw. apply findLastMatching_Some in Hw as [Hx Hm].
    split; [by apply elem_of_reverse|done]. }
  destruct (bool_decide (_currentChord svc = None)
            && from_option isChord false (keybinding x)); [done|].
  unfold Invoke, executionOf. cbn.
  destruct (command x) as [[|a id]|] eqn:Hc; cbn.
  - split; [lia|]. by intros ?? ?%elem_of_nil.
  - split; [lia|]. intros id' args [= -> ->]%list_elem_of_singleton.
    split; [done|]. split; [done|]. exists x. by destruct Hx.
  - split; [lia|]. by intros ?? ?%elem_of_nil.
Qed.

(** X11. The status message of a pending chord is released with it. If the
    service holds a status message only while a chord is pending, it still
    does after any key-press; and the next key-press that is not
    modifier-only disposes of a held message exactly once and leaves none
    held, while nothing is disposed of when none is held. *)
Theorem status_message_released_with_chord :
  ∀ (R : KeybindingResolver) (status : bool) (context : ContextValue)
    (key : N) (svc : AbstractKeybindingService),
    (_currentChordStatusMessage svc = true → is_Some (_currentChord svc)) →
    let svc' := snd (_dispatch R status context key svc) in
    (_currentChordStatusMessage svc' = true → is_Some (_currentChord svc'))
    ∧ (isModifierKey key = false →
         disposals svc' =
           disposals svc + (if _currentChordStatusMessage svc then 1 else 0)
         ∧ (_currentChordStatusMessage svc = true →
              _currentChordStatusMessage svc' = false)).
Proof.
  intros R status context key svc Hinv svc'.
  destruct (isModifierKey key) eqn:Hk.
  { subst svc'. rewrite dispatch_modifier by done. cbn. split; [done|done]. }
  assert (Hpending := resolve_pending_no_chord R context).
  subst svc'. unfold _dispatch, service_resolve, disposals. rewrite Hk.
  destruct svc as [cur msg eff]. cbn [_currentChord _currentChordStatusMessage effects] in *.
  destruct (resolve R context cur key ≫= enterChord) as [chord|] eqn:Hr.
  - destruct cur as [c|]; [by rewrite Hpending in Hr|].
    assert (msg = false) as ->.
    { destruct msg; [|done]. by destruct (Hinv eq_refl). }
    destruct status; cbn.
    + split; [eauto|]. intros _. rewrite List.filter_app. cbn.
      rewrite app_nil_r. split; [lia|done].
    + split; [done|]. intros _. split; [lia|done].
  - split.
    + destruct cur, status, msg, (resolve R context _ key) as [[? [[|? ?]|] ? ?]|];
        cbn; done.
    + intros _.
      destruct cur, status, msg, (resolve R context _ key) as [[? [[|? ?]|] ? ?]|];
        cbn; rewrite ?List.filter_app; cbn; rewrite ?length_app; cbn;
        split; (lia || done).
Qed.

End DispatcherInvariants.

Lemma dispatch_executes_selected_rule_witness :
  let X := Sample.rule 0 (SimpleKeybinding 1) "X" None true in
  let R := newKeybindingResolver [X] [] false in
  let context := Sample.context [] in
  let svc := newAbstractKeybindingService in
  executed (snd (_dispatch R true context 1%N svc)) = [("X", "{}")]
  ∧ ∃ calls,
      executed (snd (_dispatch R true context 1%N svc)) = executed svc ++ calls
      ∧ length calls ≤ 1
      ∧ ∀ id args, (id, args) ∈ calls →
          @isModifierKey Sample.ext 1%N = false
          ∧ id ≠ ""
          ∧ ∃ x, winner R context (_currentChord svc) 1%N = Some x
                 ∧ x ∈ candidates R (_currentChord svc) 1%N
                 ∧ matchesContext context x = true
                 ∧ command x = Some id
                 ∧ args = argsOrEmpty (commandArgs x).
Proof.
  intros X R context svc. split; [reflexivity|].
  exact (dispatch_executes_selected_rule R true context 1%N svc).
Defined.

Lemma status_message_released_with_chord_witness :
  let Z := Sample.rule 0 (ChordKeybinding 1 2) "Z" None true in
  let R := newKeybindingResolver [Z] [] false in
  let context := Sample.context [] in
  let svc := snd (_dispatch R true context 1%N newAbstractKeybindingService) in
  let svc' := snd (_dispatch R true context 2%N svc) in
  (_currentChordStatusMessage svc' = true → is_Some (_currentChord svc'))
  ∧ (@isModifierKey Sample.ext 2%N = false →
       disposals svc' =
         disposals svc + (if _currentChordStatusMessage svc then 1 else 0)
       ∧ (_currentChordStatusMessage svc = true →
            _currentChordStatusMessage svc' = false)).
Proof.
  intros Z R context svc.
  apply (status_message_released_with_chord R true context 2%N svc).
  intros _. by exists 1%N.
Defined.

Lemma chord_lasts_two_presses_witness :
  let Z := Sample.rule 0 (ChordKeybinding 1 2) "Z" None true in
  let R := newKeybindingResolver [Z] [] false in
  let context := Sample.context [] in
  let svc := snd (_dispatch R true context 1%N newAbstractKeybindingService) in
  _currentChord svc = Some 1%N
  ∧ _currentChord (snd (_dispatch R true context 3%N svc)) = None
  ∧ snd (_dispatch R true context 4%N svc) = svc.
Proof.
  intros Z R context svc.
  destruct (chord_lasts_two_presses R true context 3%N svc) as [_ H3].
  destruct (chord_lasts_two_presses R true context 4%N svc) as [H4 _].
  split; [reflexivity|]. split.
  - apply H3; [reflexivity|]. by exists 1%N.
  - apply H4. reflexivity.
Defined.

Section Warnings.
Context `{Ext : External}.

Lemma indexItem_frame r y :
  _shouldWarnOnConflict (indexItem r y) = _shouldWarnOnConflict r
  ∧ _defaultKeybindings (indexItem r y) = _defaultKeybindings r.
Proof.
  unfold indexItem, _addKeyPress, _addToLookupMap.
  destruct (keybinding y) as [[v|f c]|]; [| |done].
  - destruct (_map r !! v) as [conflicts|]; cbn.
    + assert (H : _shouldWarnOnConflict (foldl (checkConflict y) r (reverse conflicts))
                    = _shouldWarnOnConflict r
                  ∧ _defaultKeybindings (foldl (checkConflict y) r (reverse conflicts))
                    = _defaultKeybindings r).
      { generalize (reverse conflicts). intros l. revert r.
        induction l as [|c l IH]; intros r; [done|]. cbn.
        destruct (IH (checkConflict y r c)) as [-> ->].
        rewrite checkConflict_shadows. destruct (shadows y c); [|done].
        unfold _removeFromLookupMap, console_warn, set_lookupMap.
        destruct (_shouldWarnOnConflict r && isDefault y); repeat (case_match; cbn); done. }
      repeat (case_match; cbn); done.
    + repeat (case_match; cbn); done.
  - set (r' := set_chords _ r).
    assert (Hr' : _shouldWarnOnConflict r' = _shouldWarnOnConflict r
                  ∧ _defaultKeybindings r' = _defaultKeybindings r) by done.
    destruct Hr' as [<- <-]. generalize r'. clear r'. intros r'.
    destruct (_map r' !! f) as [conflicts|]; cbn.
    + assert (H : _shouldWarnOnConflict (foldl (checkConflict y) r' (reverse conflicts))
                    = _shouldWarnOnConflict r'
                  ∧ _defaultKeybindings (foldl (checkConflict y) r' (reverse conflicts))
                    = _defaultKeybindings r').
      { generalize (reverse conflicts). intros l. revert r'.
        induction l as [|c0 l IH]; intros r'; [done|]. cbn.
        destruct (IH (checkConflict y r' c0)) as [-> ->].
        rewrite checkConflict_shadows. destruct (shadows y c0); [|done].
        unfold _removeFromLookupMap, console_warn, set_lookupMap.
        destruct (_shouldWarnOnConflict r' && isDefault y); repeat (case_match; cbn); done. }
      repeat (case_match; cbn); done.
    + repeat (case_match; cbn); done.
Qed.

Lemma foldl_indexItem_frame l r :
  _shouldWarnOnConflict (foldl indexItem r l) = _shouldWarnOnConflict r
  ∧ _defaultKeybindings (foldl indexItem r l) = _defaultKeybindings r.
Proof.
  revert r. induction l as [|y l IH]; intros r; [done|]. cbn.
  destruct (IH (indexItem r y)) as [-> ->]. apply indexItem_frame.
Qed.

Lemma console_indexItem r y :
  console (indexItem r y) =
    console r
    ++ (if _shouldWarnOnConflict r && isDefault y && bool_decide (is_Some (keybinding y))
        then (λ c, conflictMessage c y)
               <$> List.filter (shadows y)
                     (reverse (flatBucket r (default 0%N (flatKey y))))
        else []).
Proof.
  unfold indexItem, flatKey.
  destruct (keybinding y) as [[v|f c]|]; cbn.
  - by rewrite console_addKeyPress, andb_true_r.
  - by rewrite console_addKeyPress, andb_true_r.
  - by rewrite andb_false_r, app_nil_r.
Qed.

Lemma console_foldl_indexItem rest r (seen : list NormalizedKeybindingItem) :
  (∀ k, flatBucket r k = List.filter (λ x, bool_decide (flatKey x = Some k)) seen) →
  console (foldl indexItem r rest) =
    console r ++ warningsOf (_shouldWarnOnConflict r) seen rest.
Proof.
  revert r seen. induction rest as [|y rest IH]; intros r seen Hb; cbn [foldl warningsOf].
  - by rewrite app_nil_r.
  - rewrite (IH (indexItem r y) (seen ++ [y])).
    + rewrite console_indexItem. destruct (indexItem_frame r y) as [-> _].
      rewrite <- app_assoc. f_equal. f_equal.
      destruct (keybinding y) as [kb|] eqn:Hkb.
      * assert (Hfy : flatKey y = Some (firstPartValue kb))
          by (unfold flatKey; by rewrite Hkb).
        rewrite Hfy. cbn [default]. by rewrite Hb.
      * rewrite (bool_decide_eq_false_2 (is_Some None)) by (by intros [? ?]).
        by rewrite andb_false_r.
    + intros k. rewrite flatBucket_indexItem, Hb, List.filter_app. done.
Qed.

Lemma warningsOf_app warn seen (l1 l2 : list NormalizedKeybindingItem) :
  warningsOf warn seen (l1 ++ l2) =
    warningsOf warn seen l1 ++ warningsOf warn (seen ++ l1) l2.
Proof.
  revert seen. induction l1 as [|y l1 IH]; intros seen; cbn [app warningsOf].
  - by rewrite app_nil_r.
  - rewrite IH, <- !app_assoc. done.
Qed.

Lemma warningsOf_overrides warn seen (l : list NormalizedKeybindingItem) :
  (∀ o, o ∈ l → isDefault o = false) → warningsOf warn seen l = [].
Proof.
  revert seen. induction l as [|y l IH]; intros seen H; [done|]. cbn.
  rewrite (H y) by left. rewrite andb_false_r. cbn.
  apply IH. intros o Ho. apply H. by right.
Qed.

(** X12. The warnings of a new resolver are those of its combined list:
    every default rule with a keybinding, in order, warns about each earlier
    rule filed under the same key-press that it shadows. Overrides that are
    not default rules print nothing, so the warnings are those of the
    defaults that survive the removal directives; and nothing is printed when
    warnings are disabled. *)
Theorem warnings_of_new_resolver :
  ∀ (D O : list NormalizedKeybindingItem) (w : bool),
    console (newKeybindingResolver D O w) = warningsOf w [] (combine D O)
    ∧ ((∀ o, o ∈ O → isDefault o = false) →
         console (newKeybindingResolver D O w)
           = warningsOf w [] (List.filter (survives O) D))
    ∧ console (newKeybindingResolver D O false) = [].
Proof.
  assert (Hc : ∀ D O w, console (newKeybindingResolver D O w)
                 = warningsOf w [] (combine D O)).
  { intros D O w. unfold newKeybindingResolver.
    rewrite (console_foldl_indexItem _ _ []); [done|].
    intros k. unfold flatBucket. cbn. by rewrite lookup_empty. }
  intros D O w. split; [apply Hc|]. split.
  - intros HO. rewrite Hc, combine_spec, warningsOf_app.
    rewrite (warningsOf_overrides _ _ (List.filter keptAsRule O)).
    + by rewrite app_nil_r.
    + intros o [Ho _]%list_elem_of_In%List.filter_In. by apply HO, list_elem_of_In.
  - rewrite Hc. generalize (combine D O), (@nil NormalizedKeybindingItem).
    intros l. induction l as [|y l IH]; intros seen; [done|]. cbn. apply IH.
Qed.

(** X13. The canonical text of the defaults is that of the list given to
    the constructor: the overrides, removal directives included, and the
    warning switch do not change it. *)
Theorem getDefaultKeybindings_ignores_overrides :
  ∀ (D O1 O2 : list NormalizedKeybindingItem) (w1 w2 : bool),
    getDefaultKeybindings (newKeybindingResolver D O1 w1)
      = getDefaultKeybindings (newKeybindingResolver D O2 w2)
    ∧ _defaultKeybindings (newKeybindingResolver D O1 w1) = D.
Proof.
  intros D O1 O2 w1 w2. unfold getDefaultKeybindings, newKeybindingResolver.
  destruct (foldl_indexItem_frame (combine D O1)
              (mkResolver D w1
                 (foldl (λ s d, {[ JS.toString (command d) ]} ∪ s) ∅ D) ∅ ∅ ∅ []))
    as [_ ->].
  destruct (foldl_indexItem_frame (combine D O2)
              (mkResolver D w2
                 (foldl (λ s d, {[ JS.toString (command d) ]} ∪ s) ∅ D) ∅ ∅ ∅ []))
    as [_ ->].
  done.
Qed.

(** X14. A rule without keybinding that is not a removal directive is
    inert as an override: adding it to the overrides changes neither the
    index nor the warnings. *)
Theorem override_without_keybinding_is_inert :
  ∀ (D O : list NormalizedKeybindingItem) (w : bool) (x : NormalizedKeybindingItem),
    keybinding x = None →
    keptAsRule x = true →
    indexOf (newKeybindingResolver D (O ++ [x]) w)
      = indexOf (newKeybindingResolver D O w)
    ∧ console (newKeybindingResolver D (O ++ [x]) w)
        = console (newKeybindingResolver D O w).
Proof.
  intros D O w x Hkb Hk.
  assert (Hall : combine D (O ++ [x]) = combine D O ++ [x]).
  { rewrite !combine_spec, List.filter_app. cbn. rewrite Hk, app_assoc.
    f_equal. f_equal. apply List.filter_ext. intros d. unfold survives. rewrite existsb_app. cbn.
    by rewrite Hk, orb_false_r. }
  assert (Hskip : ∀ r, indexItem r x = r).
  { intros r. unfold indexItem. by rewrite Hkb. }
  unfold newKeybindingResolver. by rewrite Hall, foldl_snoc, Hskip.
Qed.

End Warnings.

Lemma warnings_of_new_resolver_witness :
  let A := Sample.rule 0 (SimpleKeybinding 1) "X" None true in
  let B := Sample.rule 1 (SimpleKeybinding 1) "Y" None true in
  let U := Sample.rule 2 (SimpleKeybinding 1) "Z" None false in
  console (newKeybindingResolver [A; B] [U] true)
    = warningsOf true [] (List.filter (survives [U]) [A; B])
  ∧ console (newKeybindingResolver [A; B] [U] true)
      = ["Conflict detected, command `X` cannot be triggered by k1 due to Y"].
Proof.
  intros A B U.
  destruct (warnings_of_new_resolver [A; B] [U] true) as (_ & H & _).
  split; [|reflexivity].
  apply H. intros o Ho. apply list_elem_of_singleton in Ho as ->. reflexivity.
Defined.

Lemma override_without_keybinding_is_inert_witness :
  let A := Sample.rule 0 (SimpleKeybinding 1) "X" None true in
  let x := @newNormalizedKeybindingItem Sample.ext 1 None (Some "Y") None None false in
  indexOf (newKeybindingResolver [A] ([] ++ [x]) true)
    = indexOf (newKeybindingResolver [A] [] true)
  ∧ console (newKeybindingResolver [A] ([] ++ [x]) true)
      = console (newKeybindingResolver [A] [] true).
Proof.
  intros A x.
  apply (override_without_keybinding_is_inert [A] [] true x); reflexivity.
Defined.

Section UnboundCommands.
Context `{Ext : External}.

Lemma elem_of_collectUnbound (bound : gset string)
    (commands : list (string * ICommand)) (acc : list string) (id : string) :
  id ∈ collectUnbound bound commands acc ↔
    id ∈ acc
    ∨ (isPrivateCommand id = false
       ∧ (∃ c, (id, c) ∈ commands ∧ hasDescribedArgs c = false)
       ∧ id ∉ bound).
Proof.
  revert acc. induction commands as [|[id' c'] commands IH]; intros acc; cbn.
  - split; [by left|]. intros [?|(_ & (c & Hc) & _)]; [done|].
    destruct Hc as [Hc _]. by apply elem_of_nil in Hc.
  - assert (Hskip : (isPrivateCommand id' = true ∨ hasDescribedArgs c' = true ∨ id' ∈ bound) →
              (id ∈ acc
               ∨ isPrivateCommand id = false
                 ∧ (∃ c, (id, c) ∈ commands ∧ hasDescribedArgs c = false) ∧ id ∉ bound)
              ↔ (id ∈ acc
                 ∨ isPrivateCommand id = false
                   ∧ (∃ c, (id, c) ∈ (id', c') :: commands ∧ hasDescribedArgs c = false)
                   ∧ id ∉ bound)).
    { intros Hbad. split.
      - intros [?|(Hp & (c & Hc & Ha) & Hb)]; [by left|]. right.
        split; [done|]. split; [|done]. exists c. split; [by right|done].
      - intros [?|(Hp & (c & Hc & Ha) & Hb)]; [by left|]. right.
        split; [done|]. split; [|done]. exists c. split; [|done].
        apply elem_of_cons in Hc as [[= -> ->]|Hc]; [|done].
        destruct Hbad as [?|[?|?]]; congruence. }
    destruct (isPrivateCommand id') eqn:Hp'; [rewrite IH; apply Hskip; by left|].
    destruct (hasDescribedArgs c') eqn:Ha'; [rewrite IH; apply Hskip; right; by left|].
    case_bool_decide as Hb'; [rewrite IH; apply Hskip; right; by right|].
    rewrite IH, elem_of_app, list_elem_of_singleton. split.
    + intros [[?| ->]|(Hp & (c & Hc & Ha) & Hb)].
      * by left.
      * right. split; [done|]. split; [|done]. exists c'. split; [left|done].
      * right. split; [done|]. split; [|done]. exists c. split; [by right|done].
    + intros [?|(Hp & (c & Hc & Ha) & Hb)]; [left; by left|].
      apply elem_of_cons in Hc as [[= -> ->]|Hc].
      * left. by right.
      * right. split; [done|]. split; [|done]. by exists c.
Qed.

(** X15. The commands listed in the comment under the default rules are, in
    ascending order, the registered commands that are not private (no
    leading underscore, no [vscode.] prefix), describe no arguments, and are
    the command of no default rule. The overrides play no part: a command
    whose default rules are all removed by the user is still left out. *)
Theorem unbound_commands_listed :
  ∀ (D O : list NormalizedKeybindingItem) (w : bool)
    (commands : list (string * ICommand)) (id : string),
    (id ∈ unboundCommandsOf (newKeybindingResolver D O w) commands ↔
       isPrivateCommand id = false
       ∧ (∃ c, (id, c) ∈ commands ∧ hasDescribedArgs c = false)
       ∧ ∀ d, d ∈ D → JS.toString (command d) ≠ id)
    ∧ StronglySorted String.le
        (unboundCommandsOf (newKeybindingResolver D O w) commands).
Proof.
  intros D O w commands id. split.
  - unfold unboundCommandsOf, sortStrings. rewrite merge_sort_Permutation.
    rewrite elem_of_collectUnbound.
    unfold getDefaultBoundCommands, newKeybindingResolver.
    rewrite defaultBoundCommands_foldl_indexItem. cbn.
    rewrite elem_of_foldl_bound. split.
    + intros [?%elem_of_nil|(Hp & Hc & Hb)]; [done|].
      split; [done|]. split; [done|]. intros d Hd Heq. apply Hb. right. eauto.
    + intros (Hp & Hc & Hb). right. split; [done|]. split; [done|].
      intros [?%not_elem_of_empty|(d & Hd & Heq)]; [done|]. by apply (Hb d).
  - unfold unboundCommandsOf, sortStrings. apply StronglySorted_merge_sort; apply _.
Qed.

(** X16. The keybinding that the service reports for a command is the first
    of the keybindings it lists for it, and there is none exactly when the
    list is empty. *)
Theorem service_lookupKeybinding_is_first :
  ∀ (resolver : KeybindingResolver) (commandId : string),
    _actual <$> service_lookupKeybinding resolver commandId
      = head (service_lookupKeybindings resolver commandId)
    ∧ (service_lookupKeybinding resolver commandId = None
       ↔ service_lookupKeybindings resolver commandId = []).
Proof.
  intros resolver commandId.
  unfold service_lookupKeybinding, service_lookupKeybindings,
    lookupPrimaryKeybinding, lookupKeybindings.
  destruct (_lookupMap resolver !! commandId) as [items|]; [|done].
  case_bool_decide as Hlen; [done|].
  rewrite <- head_reverse.
  destruct (reverse items) as [|x l] eqn:Hrev; [|done].
  apply (f_equal length) in Hrev. rewrite length_reverse in Hrev. done.
Qed.

End UnboundCommands.

Section ContributedKeybindings.
Context `{Ext : External} `{WB : !WorkbenchExternal}.

Lemma presentNotString_false v : presentNotString v = false ↔ optionalString v.
Proof.
  unfold presentNotString, optionalString.
  destruct (valueTruthy v), (isString v); cbn; intuition congruence.
Qed.

Lemma validation_rejects (b : option ContributedKeyBinding.t) (rejects : list string) :
  if (isValidContributedKeyBinding b rejects).1
  then (isValidContributedKeyBinding b rejects).2 = rejects
  else ∃ message, (isValidContributedKeyBinding b rejects).2 = rejects ++ [message].
Proof.
  unfold isValidContributedKeyBinding. destruct b as [kb|]; cbn; [|eauto].
  destruct (isString (ContributedKeyBinding.command kb)); cbn; [|eauto].
  destruct (isString (ContributedKeyBinding.key kb)); cbn; [|eauto].
  destruct (presentNotString (ContributedKeyBinding.when kb)); cbn; [eauto|].
  destruct (presentNotString (ContributedKeyBinding.mac kb)); cbn; [eauto|].
  destruct (presentNotString (ContributedKeyBinding.linux kb)); cbn; [eauto|].
  destruct (presentNotString (ContributedKeyBinding.win kb)); cbn; [eauto|done].
Qed.

(** X17. A contributed binding is valid exactly when it is an object whose
    [command] and [key] are strings and whose [when], [mac], [linux] and
    [win] are falsy or strings. A valid binding leaves the rejects as they
    are; an invalid one adds exactly one message. *)
Theorem isValidContributedKeyBinding_spec :
  ∀ (b : option ContributedKeyBinding.t) (rejects : list string),
    ((isValidContributedKeyBinding b rejects).1 = true ↔
       ∃ kb, b = Some kb
             ∧ isString (ContributedKeyBinding.command kb) = true
             ∧ isString (ContributedKeyBinding.key kb) = true
             ∧ optionalString (ContributedKeyBinding.when kb)
             ∧ optionalString (ContributedKeyBinding.mac kb)
             ∧ optionalString (ContributedKeyBinding.linux kb)
             ∧ optionalString (ContributedKeyBinding.win kb))
    ∧ (if (isValidContributedKeyBinding b rejects).1
       then (isValidContributedKeyBinding b rejects).2 = rejects
       else ∃ message, (isValidContributedKeyBinding b rejects).2 = rejects ++ [message]).
Proof.
  intros b rejects. split; [|apply validation_rejects].
  unfold isValidContributedKeyBinding. destruct b as [kb|]; cbn.
  2:{ split; [done|]. by intros (? & ? & _). }
  destruct (isString (ContributedKeyBinding.command kb)) eqn:Hc; cbn.
  2:{ split; [done|]. intros (? & [= <-] & ? & _). congruence. }
  destruct (isString (ContributedKeyBinding.key kb)) eqn:Hk; cbn.
  2:{ split; [done|]. intros (? & [= <-] & ? & ? & _). congruence. }
  destruct (presentNotString (ContributedKeyBinding.when kb)) eqn:Hw; cbn.
  { split; [done|]. intros (? & [= <-] & _ & _ & H & _).
    apply presentNotString_false in H. congruence. }
  destruct (presentNotString (ContributedKeyBinding.mac kb)) eqn:Hm; cbn.
  { split; [done|]. intros (? & [= <-] & _ & _ & _ & H & _).
    apply presentNotString_false in H. congruence. }
  destruct (presentNotString (ContributedKeyBinding.linux kb)) eqn:Hl; cbn.
  { split; [done|]. intros (? & [= <-] & _ & _ & _ & _ & H & _).
    apply presentNotString_false in H. congruence. }
  destruct (presentNotString (ContributedKeyBinding.win kb)) eqn:Hwin; cbn.
  { split; [done|]. intros (? & [= <-] & _ & _ & _ & _ & _ & H).
    apply presentNotString_false in H. congruence. }
  split; [|done]. intros _. exists kb.
  rewrite <- !presentNotString_false. done.
Qed.

(** X18. A validated binding yields no rule exactly when its key parses to
    no keybinding and it names no key for any platform. Otherwise the rule
    carries the command, the parsed key and the weight of the extension
    kind; a platform key alone is enough, even beside an unparsable key. *)
Theorem asCommandRule_spec :
  ∀ (isBuiltin : bool) (idx : nat) (binding : ContributedKeyBinding.t)
    (c k : string),
    ContributedKeyBinding.command binding = JsString c →
    ContributedKeyBinding.key binding = JsString k →
    (_asCommandRule isBuiltin idx binding = None ↔
       fromUserSettingsLabel k = 0%N
       ∧ valueTruthy (ContributedKeyBinding.mac binding) = false
       ∧ valueTruthy (ContributedKeyBinding.linux binding) = false
       ∧ valueTruthy (ContributedKeyBinding.win binding) = false)
    ∧ ∀ rule, _asCommandRule isBuiltin idx binding = Some rule →
        IKeybindingRule.id rule = c
        ∧ IKeybindingRule.primary rule = fromUserSettingsLabel k
        ∧ IKeybindingRule.weight rule
            = (if isBuiltin then builtinExtension idx else externalExtension idx).
Proof.
  intros isBuiltin idx binding c k Hc Hk. unfold _asCommandRule.
  rewrite Hc, Hk. cbn [stringOf default IKeybindingRule.primary IKeybindingRule.mac
    IKeybindingRule.linux IKeybindingRule.win]. unfold readKeybinding, platformPrimary.
  destruct (decide (fromUserSettingsLabel k = 0%N)) as [H0|H0].
  - rewrite (bool_decide_eq_true_2 _ H0).
    destruct (valueTruthy (ContributedKeyBinding.mac binding)),
             (valueTruthy (ContributedKeyBinding.linux binding)),
             (valueTruthy (ContributedKeyBinding.win binding)); cbn;
      (split; [intuition congruence|]); intros rule [= <-]; done.
  - rewrite (bool_decide_eq_false_2 _ H0). cbn.
    split; [intuition congruence|]. by intros rule [= <-].
Qed.

Lemma handleKeybinding_spec isBuiltin idx b st :
  _handleKeybinding isBuiltin idx b st =
    (bool_decide (is_Some (ruleOfEntry isBuiltin idx b)),
     mkContributions
       (registered st ++ option_list (ruleOfEntry isBuiltin idx b))
       (collected st ++ option_list (errorOfEntry b))).
Proof.
  unfold _handleKeybinding, ruleOfEntry, errorOfEntry, validBinding.
  pose proof (validation_rejects b []) as Hr.
  destruct (isValidContributedKeyBinding b []) as [valid rejects]. cbn in *.
  destruct st as [reg col]. destruct valid.
  - subst rejects. cbn.
    rewrite (bool_decide_eq_false_2 (0 < 0)) by lia.
    destruct (b ≫= _asCommandRule isBuiltin idx) as [rule|]; cbn;
      by rewrite ?app_nil_r.
  - destruct Hr as [message ->]. cbn.
    rewrite (bool_decide_eq_true_2 (0 < 1)) by lia.
    by rewrite ?app_nil_r.
Qed.

Lemma handleArray_spec isBuiltin i bs added st :
  handleArray isBuiltin i bs added st =
    let rules := omap id (imap (λ j b, ruleOfEntry isBuiltin (i + j + 1) b) bs) in
    (added || bool_decide (rules ≠ []),
     mkContributions (registered st ++ rules)
       (collected st ++ omap errorOfEntry bs)).
Proof.
  revert i added st. induction bs as [|b bs IH]; intros i added st.
  - cbn. rewrite orb_false_r, !app_nil_r. by destruct st.
  - cbn [handleArray]. rewrite handleKeybinding_spec, IH. cbn zeta.
    rewrite imap_cons. cbn [omap list_omap registered collected].
    replace (i + 0 + 1) with (i + 1) by lia.
    assert (Hshift : imap ((λ j b0, ruleOfEntry isBuiltin (i + j + 1) b0) ∘ S) bs
              = imap (λ j b0, ruleOfEntry isBuiltin (S i + j + 1) b0) bs).
    { apply imap_ext. intros j x _. cbn. f_equal. lia. }
    rewrite Hshift.
    set (rules := omap id (imap (λ j b0, ruleOfEntry isBuiltin (S i + j + 1) b0) bs)).
    destruct (ruleOfEntry isBuiltin (i + 1) b) as [rule|] eqn:Hrule;
      destruct (errorOfEntry b) as [err|] eqn:Herr; cbn;
      rewrite <- ?app_assoc, ?app_nil_r; cbn; by rewrite ?orb_true_r.
Qed.

(** X19. The bindings of an extension are handled one by one and
    independently: each valid binding that yields a rule registers it with
    the index of its position plus one, each invalid binding reports one
    error and stops nothing, and the result tells whether a rule was
    registered. A single binding is handled as the array holding it alone. *)
Theorem contributed_bindings_handled_independently :
  ∀ (isBuiltin : bool) (bs : list (option ContributedKeyBinding.t))
    (b : option ContributedKeyBinding.t) (st : Contributions),
    (let rules := omap id (imap (λ j b, ruleOfEntry isBuiltin (j + 1) b) bs) in
     _handleKeybindingsExtensionPointUser isBuiltin (BindingArray bs) st =
       (bool_decide (rules ≠ []),
        mkContributions (registered st ++ rules)
          (collected st ++ omap errorOfEntry bs)))
    ∧ _handleKeybindingsExtensionPointUser isBuiltin (OneBinding b) st
        = _handleKeybindingsExtensionPointUser isBuiltin (BindingArray [b]) st.
Proof.
  intros isBuiltin bs b st. split.
  - cbn [_handleKeybindingsExtensionPointUser]. by rewrite handleArray_spec.
  - cbn [_handleKeybindingsExtensionPointUser]. rewrite handleArray_spec.
    rewrite handleKeybinding_spec. cbn.
    by destruct (ruleOfEntry isBuiltin 1 b) as [rule|].
Qed.

End ContributedKeybindings.

Lemma asCommandRule_spec_witness :
  let binding :=
    ContributedKeyBinding.mk (JsString "save") (JsString "nonsense")
      JsUndefined (JsString "k1") JsUndefined JsUndefined in
  ∃ rule, @_asCommandRule Sample.ext SampleWorkbench.wb true 1 binding = Some rule
          ∧ IKeybindingRule.id rule = "save"
          ∧ IKeybindingRule.primary rule = 0%N
          ∧ IKeybindingRule.mac rule = Some 1%N.
Proof.
  intros binding.
  destruct (@asCommandRule_spec Sample.ext SampleWorkbench.wb true 1 binding
              "save" "nonsense" eq_refl eq_refl) as [_ H].
  destruct (@_asCommandRule Sample.ext SampleWorkbench.wb true 1 binding)
    as [rule|] eqn:Hrule; [|discriminate].
  exists rule. destruct (H rule eq_refl) as (Hid & Hp & _).
  split; [reflexivity|]. split; [exact Hid|]. split; [exact Hp|].
  injection Hrule as <-. reflexivity.
Defined.

Section CachedResolver.
Context `{Ext : External} `{WB : !WorkbenchExternal}.

Lemma handleExtensions_spec (extensions : list (bool * Contributed)) added st :
  ∃ rules errors,
    handleExtensions extensions added st =
      (added || bool_decide (rules ≠ []),
       mkContributions (registered st ++ rules) (collected st ++ errors)).
Proof.
  revert added st. induction extensions as [|[isBuiltin value] rest IH]; intros added st.
  - exists [], []. cbn. rewrite orb_false_r, !app_nil_r. by destruct st.
  - cbn [handleExtensions].
    assert (Hone : ∃ rules errors,
              _handleKeybindingsExtensionPointUser isBuiltin value st =
                (bool_decide (rules ≠ []),
                 mkContributions (registered st ++ rules) (collected st ++ errors))).
    { destruct value as [b|bs].
      - cbn. rewrite handleKeybinding_spec.
        exists (option_list (ruleOfEntry isBuiltin 1 b)), (option_list (errorOfEntry b)).
        by destruct (ruleOfEntry isBuiltin 1 b).
      - cbn. rewrite handleArray_spec. cbn. eauto. }
    destruct Hone as (rules1 & errors1 & ->).
    destruct (IH (bool_decide (rules1 ≠ []) || added)
                (mkContributions (registered st ++ rules1) (collected st ++ errors1)))
      as (rules2 & errors2 & ->).
    exists (rules1 ++ rules2), (errors1 ++ errors2). cbn. rewrite !app_assoc.
    f_equal. destruct rules1, rules2; cbn; by rewrite ?orb_true_r, ?orb_false_r.
Qed.

(** X20. When the extensions are handled, the registry and the collector
    only grow, and the cached resolver is dropped, with one update event for
    the default source, exactly when a rule was registered; errors alone
    leave the service as it is. *)
Theorem extensions_drop_resolver_when_rule_added :
  ∀ (extensions : list (bool * Contributed)) (st : Contributions)
    (svc : WorkbenchKeybindingService),
    ∃ rules errors,
      (onExtensions extensions st svc).1
        = mkContributions (registered st ++ rules) (collected st ++ errors)
      ∧ (onExtensions extensions st svc).2
          = (if bool_decide (rules ≠ [])
             then mkWorkbench None (_firstTimeComputingResolver svc)
                    (customKeybindingsChanged svc) (firedUpdates svc ++ [false])
             else svc).
Proof.
  intros extensions st svc. unfold onExtensions.
  destruct (handleExtensions_spec extensions false st) as (rules & errors & ->).
  exists rules, errors. cbn. by destruct (bool_decide (rules ≠ [])).
Qed.

(** X21. The resolver is computed once and reused until an update drops
    it: a second request returns the cached resolver and changes nothing,
    even for other sources. The telemetry event [customKeybindingsChanged]
    is logged with the number of user entries at every computation but the
    first one of the service. *)
Theorem resolver_is_cached :
  ∀ (registry registry' : list IKeybindingItem.t)
    (rawConfig rawConfig' : option (list IUserFriendlyKeybinding.t))
    (fromUser : bool) (svc : WorkbenchKeybindingService),
    _cachedResolver svc = None →
    let R := (_getResolver registry rawConfig svc).1 in
    let svc1 := (_getResolver registry rawConfig svc).2 in
    R = newKeybindingResolver (defaultsOf registry) (overridesOf registry rawConfig) true
    ∧ _getResolver registry' rawConfig' svc1 = (R, svc1)
    ∧ customKeybindingsChanged svc1
        = customKeybindingsChanged svc
          ++ (if _firstTimeComputingResolver svc then []
              else [customKeybindingsCount rawConfig])
    ∧ (_getResolver registry' rawConfig' (updateResolver fromUser svc1)).1
        = newKeybindingResolver (defaultsOf registry')
            (overridesOf registry' rawConfig') true
    ∧ customKeybindingsChanged
        (_getResolver registry' rawConfig' (updateResolver fromUser svc1)).2
        = customKeybindingsChanged svc1 ++ [customKeybindingsCount rawConfig'].
Proof.
  intros registry registry' rawConfig rawConfig' fromUser svc Hnone R svc1.
  subst R svc1. unfold _getResolver, _getExtraKeybindings. rewrite Hnone. cbn.
  split; [done|]. split; [done|]. split; [|done].
  destruct (_firstTimeComputingResolver svc); cbn; by rewrite ?app_nil_r.
Qed.

End CachedResolver.

Lemma resolver_is_cached_witness :
  let registry := [@IKeybindingItem.mk Sample.ext 1%N (Some "X") None None 0%N 0] in
  let user := Some [@IUserFriendlyKeybinding.mk Sample.ext
                      (JsString "k1") (JsString "Y") JsUndefined None] in
  let svc := @newWorkbenchKeybindingService Sample.ext in
  let R := (@_getResolver Sample.ext SampleWorkbench.wb registry user svc).1 in
  let svc1 := (@_getResolver Sample.ext SampleWorkbench.wb registry user svc).2 in
  @_getResolver Sample.ext SampleWorkbench.wb [] None svc1 = (R, svc1)
  ∧ customKeybindingsChanged svc1 = []
  ∧ customKeybindingsChanged
      (@_getResolver Sample.ext SampleWorkbench.wb registry user
         (updateResolver true svc1)).2 = [1].
Proof.
  intros registry user svc.
  destruct (@resolver_is_cached Sample.ext SampleWorkbench.wb registry [] user None
              true svc eq_refl) as (_ & Hhit & Hfirst & _).
  destruct (@resolver_is_cached Sample.ext SampleWorkbench.wb registry registry
              user user true svc eq_refl) as (_ & _ & _ & _ & Hagain).
  split; [exact Hhit|]. split; [exact Hfirst|]. exact Hagain.
Defined.

Section ServiceBuiltResolver.
Context `{Ext : External} `{WB : !WorkbenchExternal}.

Lemma oid_imap_fromKeybindingItem (n : nat) (isDef : bool) (l : list IKeybindingItem.t) :
  oid <$> imap (λ i k, fromKeybindingItem (n + i) k isDef) l = seq n (length l).
Proof.
  revert n. induction l as [|k l IH]; intros n; [done|].
  rewrite imap_cons. cbn. rewrite Nat.add_0_r. f_equal.
  rewrite <- (IH (S n)). f_equal. apply imap_ext. intros i x _. cbn.
  f_equal. lia.
Qed.

Lemma isDefault_imap_fromKeybindingItem (n : nat) (isDef : bool)
    (l : list IKeybindingItem.t) x :
  x ∈ imap (λ i k, fromKeybindingItem (n + i) k isDef) l → isDefault x = isDef.
Proof.
  intros (i & k & -> & _)%elem_of_lookup_imap. done.
Qed.

Lemma service_rules_distinct registry rawConfig :
  NoDup (oid <$> combine (defaultsOf registry) (overridesOf registry rawConfig)).
Proof.
  eapply sublist_NoDup; last first.
  - apply fmap_sublist. rewrite combine_spec.
    apply sublist_app; apply filter_sublist.
  - rewrite fmap_app. unfold defaultsOf, overridesOf.
    rewrite (oid_imap_fromKeybindingItem 0), oid_imap_fromKeybindingItem.
    rewrite <- seq_app. apply NoDup_seq.
Qed.

(** X22. In the resolver that the service builds, every rule is an object
    of its own, the defaults are default rules and the user rules are not.
    So the keybindings listed for a command are exactly its rules that have
    a keybinding and are not shadowed by a later rule, the most recent
    first, and the warnings are those among the defaults that the user did
    not remove. *)
Theorem service_resolver_lists_unshadowed_rules :
  ∀ (registry : list IKeybindingItem.t)
    (rawConfig : option (list IUserFriendlyKeybinding.t))
    (svc : WorkbenchKeybindingService) (cmd : string),
    _cachedResolver svc = None →
    let D := defaultsOf registry in
    let O := overridesOf registry rawConfig in
    let R := (_getResolver registry rawConfig svc).1 in
    lookupKeybindings R cmd
      = reverse (List.filter (λ x, bool_decide (command x = Some cmd))
                   (unshadowed (combine D O)))
    ∧ console R = warningsOf true [] (List.filter (survives O) D).
Proof.
  intros registry rawConfig svc cmd Hnone D O R.
  assert (HR : R = newKeybindingResolver D O true).
  { subst R. unfold _getResolver, _getExtraKeybindings. rewrite Hnone.
    by destruct (_firstTimeComputingResolver svc). }
  rewrite HR. split.
  - rewrite lookupKeybindings_entries. f_equal. unfold newKeybindingResolver.
    apply entries_foldl_indexItem_unshadowed; [done..|].
    apply service_rules_distinct.
  - unfold newKeybindingResolver.
    rewrite (console_foldl_indexItem _ _ []).
    2:{ intros k. unfold flatBucket. cbn. by rewrite lookup_empty. }
    cbn. rewrite combine_spec, warningsOf_app.
    rewrite (warningsOf_overrides _ _ (List.filter keptAsRule O)).
    + by rewrite app_nil_r.
    + intros o [Ho _]%list_elem_of_In%List.filter_In. apply list_elem_of_In in Ho.
      by apply (isDefault_imap_fromKeybindingItem (length registry) false) in Ho.
Qed.

(** X23. A user entry whose command is a dash followed by a command, also
    after a caret, and that has no string for its key and none for its
    condition, is a removal directive without filter: it is not added as a
    rule, and it targets exactly the default rules of that command,
    whatever their keybinding and condition. *)
Theorem user_entry_removes_all_rules_of_command :
  ∀ (entry : IUserFriendlyKeybinding.t) (index o : nat) (target : string),
    (IUserFriendlyKeybinding.command entry = JsString (String "-"%char target)
     ∨ IUserFriendlyKeybinding.command entry
         = JsString (String "^"%char (String "-"%char target))) →
    isString (IUserFriendlyKeybinding.key entry) = false →
    isString (IUserFriendlyKeybinding.when entry) = false →
    let item := fromKeybindingItem o (readKeybindingItem entry index) false in
    keptAsRule item = false
    ∧ ∀ d, targets item d = true ↔ command d = Some target.
Proof.
  intros entry index o target Hcmd Hkey Hwhen item.
  assert (Hitem : command item = Some (String "-"%char target)
                  ∧ keybinding item = None ∧ when item = None).
  { subst item. unfold fromKeybindingItem, readKeybindingItem.
    destruct (IUserFriendlyKeybinding.key entry); [|done|];
      destruct (IUserFriendlyKeybinding.when entry); try done;
      destruct Hcmd as [-> | ->]; done. }
  destruct Hitem as (Hc & Hk & Hw). split.
  - apply keptAsRule_false. eauto.
  - intros d. unfold targets. rewrite isTargetedForRemoval_spec, Hc, Hk, Hw. cbn.
    split; [by intros (? & _)|]. intros ->. split; [done|]. split; by left.
Qed.

End ServiceBuiltResolver.

Lemma service_resolver_lists_unshadowed_rules_witness :
  let registry := [@IKeybindingItem.mk Sample.ext 1%N (Some "X") None None 0%N 0] in
  let user := Some [@IUserFriendlyKeybinding.mk Sample.ext
                      (JsString "k1") (JsString "Y") JsUndefined None] in
  let svc := @newWorkbenchKeybindingService Sample.ext in
  let R := (@_getResolver Sample.ext SampleWorkbench.wb registry user svc).1 in
  lookupKeybindings R "X" = [] ∧ length (lookupKeybindings R "Y") = 1.
Proof.
  intros registry user svc R.
  destruct (@service_resolver_lists_unshadowed_rules Sample.ext SampleWorkbench.wb
              registry user svc "X" eq_refl) as [HX _].
  destruct (@service_resolver_lists_unshadowed_rules Sample.ext SampleWorkbench.wb
              registry user svc "Y" eq_refl) as [HY _].
  split.
  - etrans; [exact HX|]. reflexivity.
  - etrans; [exact (f_equal length HY)|]. reflexivity.
Defined.

Lemma user_entry_removes_all_rules_of_command_witness :
  let entry := @IUserFriendlyKeybinding.mk Sample.ext
                 JsUndefined (JsString "-X") JsUndefined None in
  let item := @fromKeybindingItem Sample.ext SampleWorkbench.wb 5
                (@readKeybindingItem Sample.ext SampleWorkbench.wb entry 0) false in
  let d := Sample.rule 0 (ChordKeybinding 1 2) "X" (Some ["a"]) true in
  keptAsRule item = false ∧ targets item d = true.
Proof.
  intros entry item d.
  destruct (@user_entry_removes_all_rules_of_command Sample.ext SampleWorkbench.wb
              entry 0 5 "X" (or_introl eq_refl) eq_refl eq_refl) as [Hk Ht].
  split; [exact Hk|]. apply Ht. reflexivity.
Defined.

Section Precedence.
Context `{Ext : External}.

(** X24. A rule cannot be selected when a later rule, filed where
    resolution looks for the key sequence, has a condition that holds in the
    context: with distinct objects, the selected rule is then never the
    earlier one. So a rule is unreachable for a key sequence as soon as a
    later rule for it holds whenever the earlier one does. *)
Theorem earlier_rule_unreachable :
  ∀ (D O : list NormalizedKeybindingItem) (w : bool)
    (l1 l2 : list NormalizedKeybindingItem) (x y : NormalizedKeybindingItem)
    (context : ContextValue) (currentChord : option N) (keypress : N),
    NoDup (oid <$> combine D O) →
    combine D O = l1 ++ x :: l2 →
    y ∈ l2 →
    fits currentChord keypress y = true →
    (matchesContext context x = true → matchesContext context y = true) →
    winner (newKeybindingResolver D O w) context currentChord keypress ≠ Some x.
Proof.
  intros D O w l1 l2 x y context currentChord keypress Hnd Hall Hy Hfit Himp Hw.
  rewrite winner_new, Hall in Hw.
  set (P := λ z, fits currentChord keypress z && matchesContext context z) in *.
  assert (Hx : matchesContext context x = true).
  { apply last_Some_elem_of, list_elem_of_In, List.filter_In in Hw as [_ HP].
    unfold P in HP. by apply andb_true_iff in HP as [_ ?]. }
  assert (HPy : In y (List.filter P l2)).
  { apply List.filter_In. split; [by apply list_elem_of_In|].
    unfold P. by rewrite Hfit, Himp. }
  rewrite List.filter_app, last_app in Hw. cbn [List.filter] in Hw.
  assert (Hlast : last (List.filter P l2) = Some x).
  { destruct (P x); [rewrite last_cons in Hw|];
      destruct (last (List.filter P l2)) as [z|] eqn:Hl; try done;
      apply last_None in Hl; by rewrite Hl in HPy. }
  apply last_Some_elem_of, list_elem_of_In, List.filter_In in Hlast as [Hx2 _].
  rewrite Hall, fmap_app, fmap_cons in Hnd.
  apply NoDup_app in Hnd as (_ & _ & Hnd). apply NoDup_cons in Hnd as [Hnot _].
  apply Hnot, list_elem_of_fmap_2. by apply list_elem_of_In.
Qed.

Lemma survives_app (O1 O2 : list NormalizedKeybindingItem) d :
  survives (O1 ++ O2) d = survives O1 d && survives O2 d.
Proof. unfold survives. by rewrite existsb_app, negb_orb. Qed.

Lemma filter_keptAsRule_directives (O1 : list NormalizedKeybindingItem) :
  (∀ o, o ∈ O1 → keptAsRule o = false) → List.filter keptAsRule O1 = [].
Proof.
  induction O1 as [|o O1 IH]; intros Hdir; [done|]. cbn.
  rewrite (Hdir o) by left. apply IH. intros o' Ho'. apply Hdir. by right.
Qed.

(** X25. Removal directives delete defaults only, whatever their place
    among the overrides: combining with two lists in a row filters the
    defaults by the directives of both and keeps the rules of both. When the
    first list holds directives only, this is combining twice; in general it
    is not, since combining twice would let a directive delete a user rule. *)
Theorem combine_overrides_in_a_row :
  ∀ (D O1 O2 : list NormalizedKeybindingItem),
    combine D (O1 ++ O2) =
      List.filter (survives O2) (List.filter (survives O1) D)
      ++ List.filter keptAsRule O1 ++ List.filter keptAsRule O2
    ∧ ((∀ o, o ∈ O1 → keptAsRule o = false) →
         combine D (O1 ++ O2) = combine (combine D O1) O2).
Proof.
  intros D O1 O2.
  assert (Heq : combine D (O1 ++ O2) =
            List.filter (survives O2) (List.filter (survives O1) D)
            ++ List.filter keptAsRule O1 ++ List.filter keptAsRule O2).
  { rewrite combine_spec, List.filter_app, filter_filter_andb. f_equal.
    apply List.filter_ext. intros d. apply survives_app. }
  split; [done|]. intros Hdir. rewrite Heq, !combine_spec.
  by rewrite (filter_keptAsRule_directives O1 Hdir), app_nil_r.
Qed.

End Precedence.

Lemma earlier_rule_unreachable_witness :
  let A := Sample.rule 0 (SimpleKeybinding 1) "X" (Some ["a"; "b"]) true in
  let B := Sample.rule 1 (SimpleKeybinding 1) "Y" (Some ["a"]) false in
  winner (newKeybindingResolver [A] [B] true) (Sample.context ["a"; "b"]) None 1%N
    ≠ Some A.
Proof.
  intros A B.
  apply (earlier_rule_unreachable [A] [B] true [] [B] A B
           (Sample.context ["a"; "b"]) None 1%N).
  - apply (bool_decide_unpack _). vm_compute. exact I.
  - reflexivity.
  - constructor.
  - reflexivity.
  - reflexivity.
Defined.

Lemma combine_overrides_in_a_row_witness :
  let d := Sample.rule 0 (SimpleKeybinding 1) "X" None true in
  let minusX := Sample.rule 1 (SimpleKeybinding 1) "-X" None false in
  let u := Sample.rule 2 (SimpleKeybinding 1) "X" None false in
  combine [d] ([minusX] ++ [u]) = combine (combine [d] [minusX]) [u]
  ∧ combine [d] ([minusX] ++ [u]) = [u]
  ∧ combine [d] ([u] ++ [minusX]) = [u]
  ∧ combine (combine [d] [u]) [minusX] = [].
Proof.
  intros d minusX u.
  destruct (combine_overrides_in_a_row [d] [minusX] [u]) as [_ H].
  split; [|repeat split; reflexivity].
  apply H. intros o Ho. apply list_elem_of_singleton in Ho as ->. reflexivity.
Defined.

(** A rule that the by-command index has dropped can still be dispatched:
    the chord rule for [Z] is shadowed by the later rule for [W] on its first
    key-press, which a later chord shadows in turn; the second key-press of
    the chord then invokes [Z], although no keybinding is listed for it. *)
Example shadowed_chord_still_dispatches :
  let x := Sample.rule 0 (ChordKeybinding 1 2) "Z" None true in
  let y := Sample.rule 1 (SimpleKeybinding 1) "W" None true in
  let z := Sample.rule 2 (ChordKeybinding 1 3) "V" None true in
  let R := newKeybindingResolver [x; y; z] [] false in
  lookupKeybindings R "Z" = []
  ∧ resolve R (Sample.context []) None 1%N = AwaitChord 1%N
  ∧ resolve R (Sample.context []) (Some 1%N) 2%N = Invoke (Some "Z") None false.
Proof. cbn zeta. by vm_compute. Qed.

Section CanonicalText.
Context `{Ext : External}.

Lemma writeKeybindingItem_lines (L : list string) item separator :
  writeLine separator (writeKeybindingItem (mkOutput L "") item)
    = mkOutput (L ++ itemLines item separator) "".
Proof.
  unfold itemLines, writeKeybindingItem, write, writeLine.
  cbn [_lines _currentLine].
  destruct (bool_decide
              (0 < String.length match when item with
                                 | Some w => serialize w
                                 | None => ""
                                 end));
    cbn [_lines _currentLine app]; by rewrite <- ?app_assoc.
Qed.

Lemma writeItems_lines (L : list string) items :
  writeItems (mkOutput L "") items = mkOutput (L ++ bodyLines items) "".
Proof.
  revert L. induction items as [|k rest IH]; intros L; cbn [writeItems bodyLines].
  - by rewrite app_nil_r.
  - destruct rest as [|k' rest'].
    + rewrite writeKeybindingItem_lines. cbn [writeItems bodyLines].
      by rewrite app_nil_r.
    + rewrite writeKeybindingItem_lines, IH. by rewrite <- app_assoc.
Qed.

(** X26. The canonical text is made of the lines of each default rule in
    turn, between a line with the opening bracket and a line with the
    closing one, and ends with a line break. A rule takes two lines when its
    serialized condition is not empty and one line otherwise, and a comma
    closes every rule but the last. *)
Theorem getDefaultKeybindings_lines :
  ∀ (r : KeybindingResolver) (item : NormalizedKeybindingItem) (separator : string),
    getDefaultKeybindings r =
      JS.join newline (["["] ++ bodyLines (_defaultKeybindings r) ++ ["]"; ""])
    ∧ length (itemLines item separator)
        = (if bool_decide (0 < String.length (serializedWhenOf item)) then 2 else 1).
Proof.
  intros r item separator. split.
  - unfold getDefaultKeybindings, OutputBuilder_toString.
    change (writeLine "[" (mkOutput [] "")) with (mkOutput ["["] "").
    rewrite writeItems_lines. unfold writeLine. cbn [_lines _currentLine].
    by rewrite <- !app_assoc.
  - unfold itemLines, writeKeybindingItem, write, writeLine, serializedWhenOf.
    cbn [_lines _currentLine].
    by destruct (bool_decide
                   (0 < String.length match when item with
                                      | Some w => serialize w
                                      | None => ""
                                      end)).
Qed.

End CanonicalText.
